(** * Reconciliation of local and remote fitness data

    A shallow embedding of the merge routines and of the Yandex.Disk
    transfer methods of [js/modules/yandex-api.js] (class [YandexAPI]),
    with the properties stated for them in the specification.

    Conventions of the embedding:
    - a JavaScript primitive read from a record field is a [value];
      a field that is absent reads as [VUndefined];
    - numbers are the integral ones (millisecond time stamps), as [Z];
    - an array element is either [Null] or a record object ([Obj]);
      reading a property of [null] throws a [TypeError];
    - a [Map] is an association list in insertion order, a [Set] a
      duplicate-free list in insertion order;
    - [Date.parse] is implementation-defined on most strings and is a
      parameter of the development; [Iso.parse] is one instance, used to
      run the code on concrete dates. *)

From Stdlib Require Import ZArith List String Ascii Bool Lia.
From Stdlib Require Import Sorting.Sorted Sorting.Permutation.
Import ListNotations.

Set Default Proof Using "Type".

Local Open Scope string_scope.
Local Open Scope Z_scope.
Local Open Scope list_scope.

(** ** JavaScript primitives *)

Inductive value : Type :=
| VUndefined
| VNull
| VBool (b : bool)
| VNum (n : Z)
| VStr (s : string).

(** [SameValueZero] on primitives, the equality of [Map] keys and [Set]
    members.  Without [NaN] and negative zero it is structural equality. *)
Definition value_eqb (x y : value) : bool :=
  match x, y with
  | VUndefined, VUndefined => true
  | VNull, VNull => true
  | VBool a, VBool b => Bool.eqb a b
  | VNum a, VNum b => Z.eqb a b
  | VStr a, VStr b => String.eqb a b
  | _, _ => false
  end.

(** [ToBoolean]. *)
Definition truthy (v : value) : bool :=
  match v with
  | VUndefined | VNull => false
  | VBool b => b
  | VNum n => negb (Z.eqb n 0)
  | VStr s => negb (String.eqb s EmptyString)
  end.

(** [a || b] on primitives. *)
Definition js_or (a b : value) : value := if truthy a then a else b.

(** A [Date] object is its time value: milliseconds since the epoch, or
    [None] for the [NaN] of an invalid date. *)
Definition Date : Type := option Z.

Definition TimeClip (t : Z) : Date :=
  if Z.leb (Z.abs t) 8640000000000000 then Some t else None.

(** An element of a JSON array of records. *)
Inductive nullable (A : Type) : Type :=
| Null
| Obj (a : A).
Arguments Null {A}.
Arguments Obj {A} a.

(** ** Exceptions *)

(** [ErrorStatus prefix status] is an [Error] whose message is [prefix]
    followed by the HTTP status. *)
Inductive error : Type :=
| TypeError
| SyntaxError
| Error (message : string)
| ErrorStatus (prefix : string) (status : Z).

Inductive result (A : Type) : Type :=
| Ok (a : A)
| Throw (e : error).
Arguments Ok {A} a.
Arguments Throw {A} e.

Definition bind {A B : Type} (c : result A) (k : A -> result B) : result B :=
  match c with
  | Ok a => k a
  | Throw e => Throw e
  end.

Declare Scope js_scope.
Delimit Scope js_scope with js.
Notation "x <- c ;; k" := (bind c (fun x => k))
  (at level 61, c at next level, right associativity) : js_scope.
Local Open Scope js_scope.

(** [o.field] for an array element [o]: a property read on [null] throws. *)
Definition deref {A : Type} (o : nullable A) : result A :=
  match o with
  | Null => Throw TypeError
  | Obj a => Ok a
  end.

(** [array.forEach(f)] where the callback updates [acc] and may throw. *)
Fixpoint forEach {A S : Type} (f : S -> A -> result S) (array : list A) (acc : S)
  : result S :=
  match array with
  | [] => Ok acc
  | x :: rest => acc' <- f acc x ;; forEach f rest acc'
  end.

(** ** [Map]: keys in insertion order *)

Module JsMap.

Definition t (A : Type) : Type := list (value * A).

Definition empty {A : Type} : t A := [].

Fixpoint get {A : Type} (m : t A) (k : value) : option A :=
  match m with
  | [] => None
  | (k', v) :: m' => if value_eqb k' k then Some v else get m' k
  end.

(** [set] on a key already present replaces the value in place. *)
Fixpoint set {A : Type} (m : t A) (k : value) (v : A) : t A :=
  match m with
  | [] => [(k, v)]
  | (k', v') :: m' =>
      if value_eqb k' k then (k', v) :: m' else (k', v') :: set m' k v
  end.

Definition keys {A : Type} (m : t A) : list value := map fst m.

Definition values {A : Type} (m : t A) : list A := map snd m.

End JsMap.

(** ** [Set] of strings *)

Module JsSet.

Definition t : Type := list string.

Definition empty : t := [].

Definition has (s : t) (x : string) : bool := existsb (String.eqb x) s.

Definition add (s : t) (x : string) : t := if has s x then s else s ++ [x].

End JsSet.

(** ** [Array.prototype.sort]

    The comparator returns a number, [None] standing for [NaN], which
    [sort] reads as zero.  The sort is stable; it is modelled by a stable
    insertion sort, which for a consistent comparator yields the one
    order the language prescribes. *)

Definition positive_cmp (c : option Z) : bool :=
  match c with
  | Some n => Z.ltb 0 n
  | None => false
  end.

Fixpoint sort_insert {A : Type} (cmp : A -> A -> option Z) (x : A) (l : list A)
  : list A :=
  match l with
  | [] => [x]
  | y :: l' =>
      if positive_cmp (cmp x y) then y :: sort_insert cmp x l' else x :: y :: l'
  end.

Fixpoint Array_sort {A : Type} (cmp : A -> A -> option Z) (l : list A) : list A :=
  match l with
  | [] => []
  | x :: l' => sort_insert cmp x (Array_sort cmp l')
  end.

(** ** Records of the data model *)

Record ExerciseSet : Type := { weight : Z; reps : Z }.

Record Exercise : Type := { exercise : string; sets : list ExerciseSet }.

Module Workout.
Record t : Type := {
  id : value;
  date : value;
  updatedAt : value;
  deviceId : value;
  exercises : list Exercise
}.
End Workout.

Module BodyAnalysis.
Record t : Type := {
  id : value;
  timestamp : value;
  bodyFatPercentage : Z;
  muscleMass : Z;
  fitnessLevel : string;
  overallHealth : string;
  confidence : Z
}.
End BodyAnalysis.

(** The sync document.  A collection that is absent (or [null]) is
    [None]; [others] are the remaining fields of the object, such as the
    [exportDate] written by [exportData]. *)
Record SyncData : Type := {
  workouts : option (list (nullable Workout.t));
  recentExercises : option (list string);
  bodyAnalyses : option (list (nullable BodyAnalysis.t));
  others : list (string * value)
}.

(** [collection || []] *)
Definition or_empty {A : Type} (collection : option (list A)) : list A :=
  match collection with
  | Some l => l
  | None => []
  end.

(** ** Dates *)

(** [a > b] on dates: false as soon as one of them is invalid. *)
Definition Date_gt (a b : Date) : bool :=
  match a, b with
  | Some x, Some y => Z.ltb y x
  | _, _ => false
  end.

(** [a - b] on dates: [NaN] as soon as one of them is invalid. *)
Definition Date_sub (a b : Date) : option Z :=
  match a, b with
  | Some x, Some y => Some (x - y)
  | _, _ => None
  end.

(** ** The shape shared by the two record merges

    [mergeWorkouts] and [mergeBodyAnalyses] below are the same code up to
    the fields they read.  [merge_records] is that code on lists of
    record objects, where nothing throws; the two merges are shown to
    compute it, and the properties are proved once. *)

Section MergeRecords.

Variable A : Type.
Variable key : A -> value.
Variable stamp : A -> Date.
Variable order : A -> Date.

Definition put_local (m : JsMap.t A) (a : A) : JsMap.t A := JsMap.set m (key a) a.

Definition put_remote (m : JsMap.t A) (a : A) : JsMap.t A :=
  match JsMap.get m (key a) with
  | None => JsMap.set m (key a) a
  | Some existing =>
      if Date_gt (stamp a) (stamp existing) then JsMap.set m (key a) a else m
  end.

(** The record [put_remote] leaves under the key of [incoming]. *)
Definition resolve (existing : option A) (incoming : A) : A :=
  match existing with
  | None => incoming
  | Some e => if Date_gt (stamp incoming) (stamp e) then incoming else e
  end.

Definition merged_map (l r : list A) : JsMap.t A :=
  fold_left put_remote r (fold_left put_local l JsMap.empty).

Definition newest_first (a b : A) : option Z := Date_sub (order b) (order a).

Definition merge_records (l r : list A) : list A :=
  Array_sort newest_first (JsMap.values (merged_map l r)).

(** A map built by the merge files every record under its own key. *)
Definition keyed (m : JsMap.t A) : Prop :=
  Forall (fun kv => fst kv = key (snd kv)) m.

(** No record of [l] other than [w] itself carries the key of [w]. *)
Definition alone_in (w : A) (l : list A) : Prop :=
  forall a, In a l -> key a = key w -> a = w.

(** The record of [l] filed under [k], when keys are not repeated. *)
Definition lookup (k : value) (l : list A) : option A :=
  find (fun a => value_eqb (key a) k) l.

End MergeRecords.

Arguments put_local {A} key m a.
Arguments put_remote {A} key stamp m a.
Arguments resolve {A} stamp existing incoming.
Arguments merged_map {A} key stamp l r.
Arguments newest_first {A} order a b.
Arguments merge_records {A} key stamp order l r.
Arguments keyed {A} key m.
Arguments alone_in {A} key w l.
Arguments lookup {A} key k l.

(** ** The reconciler *)

Section Reconciler.

(** [Date.parse] of the host. *)
Variable Date_parse : string -> Date.

(** [new Date(v)] for a primitive [v]. *)
Definition new_Date (v : value) : Date :=
  match v with
  | VStr s => Date_parse s
  | VUndefined => None
  | VNull => TimeClip 0
  | VBool b => TimeClip (if b then 1 else 0)
  | VNum n => TimeClip n
  end.

Definition mergeWorkouts (localWorkouts remoteWorkouts : list (nullable Workout.t))
  : result (list Workout.t) :=
  workoutMap <- forEach (fun workoutMap o =>
      workout <- deref o ;;
      Ok (JsMap.set workoutMap (Workout.id workout) workout))
    localWorkouts JsMap.empty ;;
  workoutMap <- forEach (fun workoutMap o =>
      workout <- deref o ;;
      match JsMap.get workoutMap (Workout.id workout) with
      | None => Ok (JsMap.set workoutMap (Workout.id workout) workout)
      | Some existing =>
          let existingDate :=
            new_Date (js_or (Workout.updatedAt existing) (Workout.date existing)) in
          let remoteDate :=
            new_Date (js_or (Workout.updatedAt workout) (Workout.date workout)) in
          if Date_gt remoteDate existingDate
          then Ok (JsMap.set workoutMap (Workout.id workout) workout)
          else Ok workoutMap
      end)
    remoteWorkouts workoutMap ;;
  Ok (Array_sort
        (fun a b => Date_sub (new_Date (Workout.date b)) (new_Date (Workout.date a)))
        (JsMap.values workoutMap)).

Definition mergeRecentExercises (localRecent remoteRecent : list string)
  : list string :=
  let exerciseSet :=
    fold_left (fun exerciseSet exercise => JsSet.add exerciseSet exercise)
      (localRecent ++ remoteRecent) JsSet.empty in
  firstn 10 exerciseSet.

Definition mergeBodyAnalyses
  (localAnalyses remoteAnalyses : list (nullable BodyAnalysis.t))
  : result (list BodyAnalysis.t) :=
  analysisMap <- forEach (fun analysisMap o =>
      analysis <- deref o ;;
      Ok (JsMap.set analysisMap (BodyAnalysis.id analysis) analysis))
    localAnalyses JsMap.empty ;;
  analysisMap <- forEach (fun analysisMap o =>
      analysis <- deref o ;;
      match JsMap.get analysisMap (BodyAnalysis.id analysis) with
      | None => Ok (JsMap.set analysisMap (BodyAnalysis.id analysis) analysis)
      | Some existing =>
          let existingDate := new_Date (BodyAnalysis.timestamp existing) in
          let remoteDate := new_Date (BodyAnalysis.timestamp analysis) in
          if Date_gt remoteDate existingDate
          then Ok (JsMap.set analysisMap (BodyAnalysis.id analysis) analysis)
          else Ok analysisMap
      end)
    remoteAnalyses analysisMap ;;
  Ok (Array_sort
        (fun a b =>
           Date_sub (new_Date (BodyAnalysis.timestamp b))
                    (new_Date (BodyAnalysis.timestamp a)))
        (JsMap.values analysisMap)).

(** [mergeData]: [None] is a [null] dataset.  The [try]/[catch] of the
    source logs and rethrows, which leaves the outcome as it is. *)
Definition mergeData (localData remoteData : option SyncData)
  : result (option SyncData) :=
  match remoteData with
  | None => Ok localData
  | Some remote =>
      match localData with
      | None => Ok remoteData
      | Some local =>
          mergedWorkouts <-
            mergeWorkouts (or_empty (workouts local)) (or_empty (workouts remote)) ;;
          let mergedRecentExercises :=
            mergeRecentExercises (or_empty (recentExercises local))
                                 (or_empty (recentExercises remote)) in
          mergedBodyAnalyses <-
            mergeBodyAnalyses (or_empty (bodyAnalyses local))
                              (or_empty (bodyAnalyses remote)) ;;
          Ok (Some {| workouts := Some (map Obj mergedWorkouts);
                      recentExercises := Some mergedRecentExercises;
                      bodyAnalyses := Some (map Obj mergedBodyAnalyses);
                      others := [] |})
      end
  end.

(** The time stamps the two merges compare and sort by. *)
Definition workoutStamp (w : Workout.t) : Date :=
  new_Date (js_or (Workout.updatedAt w) (Workout.date w)).

Definition workoutDate (w : Workout.t) : Date := new_Date (Workout.date w).

Definition analysisStamp (a : BodyAnalysis.t) : Date :=
  new_Date (BodyAnalysis.timestamp a).

(** The two merges on lists of record objects. *)
Definition merge_workout_records : list Workout.t -> list Workout.t -> list Workout.t :=
  merge_records Workout.id workoutStamp workoutDate.

Definition merge_analysis_records
  : list BodyAnalysis.t -> list BodyAnalysis.t -> list BodyAnalysis.t :=
  merge_records BodyAnalysis.id analysisStamp analysisStamp.

End Reconciler.

(** Lists ordered newest first by a time stamp that is valid throughout. *)
Definition newer_or_same {A : Type} (order : A -> Date) (a b : A) : Prop :=
  match order a, order b with
  | Some ta, Some tb => tb <= ta
  | _, _ => False
  end.

(** [kept] is in [merged], and is the only record there under its key. *)
Definition sole_survivor {A : Type} (key : A -> value) (merged : list A) (kept : A)
  : Prop :=
  In kept merged /\ forall x, In x merged -> key x = key kept -> x = kept.

(** Of a local and a remote record with valid stamps, [kept] is the
    strictly later one, and the local one when the stamps are equal. *)
Definition later_wins_local_on_tie {A : Type} (stamp : A -> Date)
  (local remote kept : A) : Prop :=
  forall tl tr, stamp local = Some tl -> stamp remote = Some tr ->
    (tl < tr -> kept = remote) /\ (tr < tl -> kept = local) /\ (tl = tr -> kept = local).

(** A record whose sort stamp is a valid date. *)
Definition dated {A : Type} (order : A -> Date) (a : A) : Prop := order a <> None.

(** ** The recent-exercise merge, as the specification words it *)

(** Keep the first occurrence of every element. *)
Fixpoint dedupe_first (l : list string) : list string :=
  match l with
  | [] => []
  | x :: rest => x :: filter (fun y => negb (String.eqb x y)) (dedupe_first rest)
  end.

Definition recent_spec (localRecent remoteRecent : list string) : list string :=
  firstn 10 (dedupe_first (localRecent ++ remoteRecent)).

(** ** Date strings of the ISO format

    One instance of [Date.parse]: the date-time format every engine has
    to accept, in its two forms [YYYY-MM-DD] and
    [YYYY-MM-DDTHH:mm:ss.sssZ] (what [toISOString] writes), both in UTC.
    Every other string is taken as invalid. *)

Module Iso.

Definition digit (c : ascii) : option Z :=
  let n := Z.of_N (N_of_ascii c) in
  if (48 <=? n) && (n <=? 57) then Some (n - 48) else None.

(** Read exactly [count] digits. *)
Fixpoint digits (count : nat) (s : string) (acc : Z) : option (Z * string) :=
  match count with
  | O => Some (acc, s)
  | S count' =>
      match s with
      | String c s' =>
          match digit c with
          | Some d => digits count' s' (10 * acc + d)
          | None => None
          end
      | EmptyString => None
      end
  end.

Definition expect (c : ascii) (s : string) : option string :=
  match s with
  | String c' s' => if Ascii.eqb c c' then Some s' else None
  | EmptyString => None
  end.

Definition leap (y : Z) : bool :=
  (y mod 4 =? 0) && (negb (y mod 100 =? 0) || (y mod 400 =? 0)).

Definition days_in_month (y m : Z) : Z :=
  if m =? 2 then (if leap y then 29 else 28)
  else if (m =? 4) || (m =? 6) || (m =? 9) || (m =? 11) then 30
  else 31.

(** Days from 1970-01-01 to the civil date [y]-[m]-[d]. *)
Definition days_from_civil (y m d : Z) : Z :=
  let y' := if m <=? 2 then y - 1 else y in
  let era := y' / 400 in
  let yoe := y' - era * 400 in
  let doy := (153 * ((m + 9) mod 12) + 2) / 5 + d - 1 in
  let doe := yoe * 365 + yoe / 4 - yoe / 100 + doy in
  era * 146097 + doe - 719468.

Definition MakeDay (y m d : Z) : option Z :=
  if (1 <=? m) && (m <=? 12) && (1 <=? d) && (d <=? days_in_month y m)
  then Some (days_from_civil y m d) else None.

Definition MakeTime (h mi s ms : Z) : option Z :=
  if (h <=? 23) && (mi <=? 59) && (s <=? 59)
  then Some (((h * 60 + mi) * 60 + s) * 1000 + ms) else None.

Definition and_then {A B : Type} (o : option A) (k : A -> option B) : option B :=
  match o with
  | Some a => k a
  | None => None
  end.

Definition calendar_date (s : string) : option (Z * string) :=
  and_then (digits 4 s 0) (fun '(y, s) =>
  and_then (expect "-" s) (fun s =>
  and_then (digits 2 s 0) (fun '(m, s) =>
  and_then (expect "-" s) (fun s =>
  and_then (digits 2 s 0) (fun '(d, s) =>
  and_then (MakeDay y m d) (fun day => Some (day, s))))))).

Definition clock_time (s : string) : option Z :=
  and_then (expect "T" s) (fun s =>
  and_then (digits 2 s 0) (fun '(h, s) =>
  and_then (expect ":" s) (fun s =>
  and_then (digits 2 s 0) (fun '(mi, s) =>
  and_then (expect ":" s) (fun s =>
  and_then (digits 2 s 0) (fun '(sec, s) =>
  and_then (expect "." s) (fun s =>
  and_then (digits 3 s 0) (fun '(ms, s) =>
  and_then (expect "Z" s) (fun s =>
  match s with
  | EmptyString => MakeTime h mi sec ms
  | String _ _ => None
  end))))))))).

Definition parse (s : string) : Date :=
  and_then (calendar_date s) (fun '(day, rest) =>
  match rest with
  | EmptyString => Some (day * 86400000)
  | String _ _ => and_then (clock_time rest) (fun t => Some (day * 86400000 + t))
  end).

End Iso.

(** ** Transfers to and from Yandex.Disk *)

(** The text [JSON.stringify(d, null, 2)], kept as the document it
    denotes. *)
Inductive payload : Type :=
| Json (d : option SyncData).

Definition JSON_stringify (d : option SyncData) : payload := Json d.

(** The five HTTP exchanges of the module.  The first, second and fourth
    carry the OAuth token. *)
Inductive request : Type :=
| PutResource (token path : string)
| GetUploadLink (token path : string)
| PutFile (href : string) (data : payload)
| GetDownloadLink (token path : string)
| GetFile (href : string).

(** A JSON body, seen through the two reads the code makes of it: its
    [href] property (empty when there is none) and the document itself. *)
Record document : Type := { href : string; content : option SyncData }.

(** [json] is [None] when the body is not JSON and [response.json()]
    rejects. *)
Record response : Type := { status : Z; json : option document }.

Definition ok (r : response) : bool := (200 <=? status r) && (status r <=? 299).

Record YandexAPI : Type := { token : option string; isAuthenticated : bool }.

(** What the transfer methods return: [{ success, exists }]. *)
Record outcome : Type := { success : bool; exists_ : option bool }.

(** [s.lastIndexOf(c)], -1 when [c] does not occur. *)
Fixpoint lastIndexOf_from (c : ascii) (s : string) (i found : Z) : Z :=
  match s with
  | EmptyString => found
  | String c' s' => lastIndexOf_from c s' (i + 1) (if Ascii.eqb c' c then i else found)
  end.

Definition lastIndexOf (s : string) (c : ascii) : Z := lastIndexOf_from c s 0 (-1).

(** [s.substring(0, stop)]: a negative [stop] counts as zero. *)
Definition substring_to (s : string) (stop : Z) : string :=
  String.substring 0 (Z.to_nat stop) s.

Section Transfer.

(** The network and what lies behind it: [fetch] answers a request, or
    rejects ([None]), and may change the world. *)
Variable World : Type.
Variable fetch : request -> World -> option response * World.

(** A run carries the world and the requests sent so far. *)
Record session : Type := { world : World; sent : list request }.

Definition IO (A : Type) : Type := session -> result A * session.

Definition ret {A : Type} (a : A) : IO A := fun s => (Ok a, s).

Definition throw {A : Type} (e : error) : IO A := fun s => (Throw e, s).

Definition and_await {A B : Type} (c : IO A) (k : A -> IO B) : IO B :=
  fun s =>
    match c s with
    | (Ok a, s') => k a s'
    | (Throw e, s') => (Throw e, s')
    end.

Definition await_fetch (rq : request) : IO response :=
  fun s =>
    let (answer, w) := fetch rq (world s) in
    let s' := {| world := w; sent := sent s ++ [rq] |} in
    match answer with
    | Some r => (Ok r, s')
    | None => (Throw TypeError, s')
    end.

Definition await_json (r : response) : IO document :=
  match json r with
  | Some d => ret d
  | None => throw SyntaxError
  end.

Declare Scope io_scope.
Delimit Scope io_scope with io.
Notation "x <- c ;; k" := (and_await c (fun x => k))
  (at level 61, c at next level, right associativity) : io_scope.
Local Open Scope io_scope.

(** The guard [if (!this.token) throw ...] that opens every method. *)
Definition with_token {A : Type} (this : YandexAPI) (k : string -> IO A) : IO A :=
  match token this with
  | Some t => if String.eqb t EmptyString then throw (Error "No token provided") else k t
  | None => throw (Error "No token provided")
  end.

Definition createFolder (this : YandexAPI) (path : string) : IO outcome :=
  with_token this (fun t =>
    response <- await_fetch (PutResource t path) ;;
    if status response =? 409
    then ret {| success := true; exists_ := Some true |}
    else if negb (ok response)
    then throw (ErrorStatus "HTTP" (status response))
    else ret {| success := true; exists_ := Some false |}).

Definition uploadFile (this : YandexAPI) (path : string) (data : payload)
  : IO outcome :=
  with_token this (fun t =>
    uploadUrlResponse <- await_fetch (GetUploadLink t path) ;;
    if negb (ok uploadUrlResponse)
    then throw (ErrorStatus "Failed to get upload URL: HTTP" (status uploadUrlResponse))
    else
      uploadInfo <- await_json uploadUrlResponse ;;
      if String.eqb (href uploadInfo) EmptyString
      then throw (Error "No upload URL received")
      else
        uploadResponse <- await_fetch (PutFile (href uploadInfo) data) ;;
        if negb (ok uploadResponse)
        then throw (ErrorStatus "Upload failed: HTTP" (status uploadResponse))
        else ret {| success := true; exists_ := None |}).

Definition downloadFile (this : YandexAPI) (path : string)
  : IO (option SyncData) :=
  with_token this (fun t =>
    response <- await_fetch (GetDownloadLink t path) ;;
    if negb (ok response)
    then
      if status response =? 404
      then ret None
      else throw (ErrorStatus "HTTP" (status response))
    else
      downloadInfo <- await_json response ;;
      if String.eqb (href downloadInfo) EmptyString
      then throw (Error "No download URL received")
      else
        fileResponse <- await_fetch (GetFile (href downloadInfo)) ;;
        if negb (ok fileResponse)
        then throw (ErrorStatus "File download failed: HTTP" (status fileResponse))
        else
          fileData <- await_json fileResponse ;;
          ret (content fileData)).

Definition syncData (this : YandexAPI) (localData : option SyncData)
  (remotePath : string) : IO outcome :=
  with_token this (fun _ =>
    let folderPath := substring_to remotePath (lastIndexOf remotePath "/") in
    _ <- createFolder this folderPath ;;
    let jsonData := JSON_stringify localData in
    _ <- uploadFile this remotePath jsonData ;;
    ret {| success := true; exists_ := None |}).

Definition loadData (this : YandexAPI) (remotePath : string)
  : IO (option SyncData) :=
  with_token this (fun _ =>
    data <- downloadFile this remotePath ;;
    match data with
    | None => ret None
    | Some d => ret (Some d)
    end).

End Transfer.

Arguments world {World} s.
Arguments sent {World} s.
Arguments createFolder {World} fetch this path.
Arguments uploadFile {World} fetch this path data.
Arguments downloadFile {World} fetch this path.
Arguments syncData {World} fetch this localData remotePath.
Arguments loadData {World} fetch this remotePath.

(** What a request asks of the disk. *)
Definition is_download (rq : request) : bool :=
  match rq with
  | GetDownloadLink _ _ | GetFile _ => true
  | _ => false
  end.

(** ** A disk to run the transfers against

    Folders and files by path; a link to a file is its path. *)

Module Disk.

Record t : Type := {
  folders : list string;
  files : list (string * option SyncData)
}.

Definition read (d : t) (path : string) : option (option SyncData) :=
  option_map snd (find (fun f => String.eqb (fst f) path) (files d)).

Definition write (d : t) (path : string) (doc : option SyncData) : t :=
  {| folders := folders d;
     files := (path, doc)
              :: filter (fun f => negb (String.eqb (fst f) path)) (files d) |}.

Definition fetch (rq : request) (d : t) : option response * t :=
  match rq with
  | PutResource _ path =>
      if existsb (String.eqb path) (folders d)
      then (Some {| status := 409; json := None |}, d)
      else (Some {| status := 201; json := None |},
            {| folders := path :: folders d; files := files d |})
  | GetUploadLink _ path =>
      (Some {| status := 200; json := Some {| href := path; content := None |} |}, d)
  | PutFile link (Json doc) =>
      (Some {| status := 201; json := None |}, write d link doc)
  | GetDownloadLink _ path =>
      match read d path with
      | Some _ =>
          (Some {| status := 200;
                   json := Some {| href := path; content := None |} |}, d)
      | None => (Some {| status := 404; json := None |}, d)
      end
  | GetFile link =>
      match read d link with
      | Some doc =>
          (Some {| status := 200; json := Some {| href := EmptyString; content := doc |} |}, d)
      | None => (Some {| status := 404; json := None |}, d)
      end
  end.

End Disk.

(** ** Sample records *)

Module Sample.

Definition workout (id date updatedAt : value) : Workout.t :=
  {| Workout.id := id;
     Workout.date := date;
     Workout.updatedAt := updatedAt;
     Workout.deviceId := VStr "device-1";
     Workout.exercises :=
       [ {| exercise := "Squat"; sets := [ {| weight := 50; reps := 10 |} ] |} ] |}.

Definition analysis (id timestamp : value) : BodyAnalysis.t :=
  {| BodyAnalysis.id := id;
     BodyAnalysis.timestamp := timestamp;
     BodyAnalysis.bodyFatPercentage := 18;
     BodyAnalysis.muscleMass := 40;
     BodyAnalysis.fitnessLevel := "intermediate";
     BodyAnalysis.overallHealth := "good";
     BodyAnalysis.confidence := 80 |}.

(** The two versions of workout [a] of the specification's scenario. *)
Definition local_a : Workout.t :=
  workout (VStr "a") (VStr "2024-01-01") (VStr "2024-01-01").

Definition remote_a : Workout.t :=
  workout (VStr "a") (VStr "2024-01-01") (VStr "2024-01-05").

Definition workout_b : Workout.t :=
  workout (VStr "b") (VStr "2024-01-03") VUndefined.

(** Two workouts that lack an [id]. *)
Definition anonymous_new : Workout.t :=
  workout VUndefined (VStr "2024-01-02") (VStr "2024-01-02").

Definition anonymous_old : Workout.t :=
  workout VUndefined (VStr "2024-01-01") (VStr "2024-01-01").

Definition local_scan : BodyAnalysis.t :=
  analysis (VStr "s") (VStr "2024-02-01T08:00:00.000Z").

Definition remote_scan : BodyAnalysis.t :=
  analysis (VStr "s") (VStr "2024-02-01T09:30:00.000Z").

Definition other_scan : BodyAnalysis.t :=
  analysis (VStr "t") (VStr "2024-01-15T12:00:00.000Z").

Definition anonymous_scan_new : BodyAnalysis.t :=
  analysis VUndefined (VStr "2024-02-02T08:00:00.000Z").

Definition anonymous_scan_old : BodyAnalysis.t :=
  analysis VUndefined (VStr "2024-02-01T08:00:00.000Z").

(** A signed-in client, a local dataset, and a disk that already holds
    another dataset at the sync path. *)
Definition signed_in : YandexAPI :=
  {| token := Some "y0_token"; isAuthenticated := true |}.

Definition remote_path : string := "/MyFitness/data.json".

Definition local_data : SyncData :=
  {| workouts := Some [Obj local_a];
     recentExercises := Some ["Squat"];
     bodyAnalyses := None;
     others := [("exportDate", VStr "2024-01-06T10:00:00.000Z")] |}.

Definition remote_data : SyncData :=
  {| workouts := Some [Obj workout_b];
     recentExercises := Some ["Plank"];
     bodyAnalyses := Some [Obj other_scan];
     others := [] |}.

Definition disk : Disk.t :=
  {| Disk.folders := ["/MyFitness"];
     Disk.files := [(remote_path, Some remote_data)] |}.

End Sample.

(** * Further definitions *)

(** ** The survivor of an id

    What the two passes leave under one key, written as a walk over the
    records alone, without the map. *)

Section Survivor.

Variable A : Type.
Variable key : A -> value.
Variable stamp : A -> Date.

Definition carries (k : value) (a : A) : bool := value_eqb (key a) k.

Definition local_step (k : value) (acc : option A) (a : A) : option A :=
  if carries k a then Some a else acc.

Definition remote_step (k : value) (acc : option A) (b : A) : option A :=
  if carries k b then Some (resolve stamp acc b) else acc.

Definition survivor (k : value) (l r : list A) : option A :=
  fold_left (remote_step k) r (fold_left (local_step k) l None).

(** [x] is not older than [b]: [b] would not replace it. *)
Definition withstands (x b : A) : Prop := Date_gt (stamp b) (stamp x) = false.

(** A record as the map files it. *)
Definition filed (x : A) : value * A := (key x, x).

(** No local and remote record of one id carry the same time stamp,
    unless they are the same record. *)
Definition no_tie (l r : list A) : Prop :=
  forall a b, In a l -> In b r -> key a = key b ->
    a = b \/ exists ta tb, stamp a = Some ta /\ stamp b = Some tb /\ ta <> tb.

End Survivor.

Arguments carries {A} key k a.
Arguments local_step {A} key k acc a.
Arguments remote_step {A} key stamp k acc b.
Arguments survivor {A} key stamp k l r.
Arguments withstands {A} stamp x b.
Arguments filed {A} key x.
Arguments no_tie {A} key stamp l r.

(** ** Datasets with valid dates *)

(** An array of record objects whose sort stamps are all valid dates. *)
Definition dated_records {A : Type} (order : A -> Date) (l : list (nullable A))
  : Prop :=
  Forall (fun o => match o with
                   | Obj a => dated order a
                   | Null => False
                   end) l.

Definition dated_dataset (Date_parse : string -> Date) (d : SyncData) : Prop :=
  dated_records (workoutDate Date_parse) (or_empty (workouts d))
  /\ dated_records (analysisStamp Date_parse) (or_empty (bodyAnalyses d)).

(** ** Signing in and out

    [YandexAPI] above holds the two fields the transfers read.  A
    [client] adds [userInfo], and [location] is the part of the page
    address the OAuth callback reads and rewrites. *)

Section Client.

(** The JSON document the login service answers with. *)
Variable Info : Type.

Record client : Type := { api : YandexAPI; userInfo : option Info }.

(** [!!token] *)
Definition has_token (tok : option string) : bool :=
  match tok with
  | Some t => negb (String.eqb t EmptyString)
  | None => false
  end.

(** [new YandexAPI()] *)
Definition new_client : client :=
  {| api := {| token := None; isAuthenticated := false |}; userInfo := None |}.

Definition init (this : client) (tok : option string) : client :=
  {| api := {| token := tok; isAuthenticated := has_token tok |};
     userInfo := userInfo this |}.

Definition logout (this : client) : client :=
  {| api := {| token := None; isAuthenticated := false |}; userInfo := None |}.

(** [URLSearchParams] of the host: [URLSearchParams_get q name] is
    [new URLSearchParams(q).get(name)]. *)
Variable URLSearchParams_get : string -> string -> option string.

(** [window.location]: [hash] with its leading ["#"], empty when the
    address has no fragment. *)
Record location : Type := { pathname : string; hash : string }.

(** [s.substring(1)] *)
Definition substring_from_1 (s : string) : string :=
  match s with
  | EmptyString => EmptyString
  | String _ rest => rest
  end.

(** What [handleOAuthCallback] returns: [{ success, token }] or
    [{ success, error }]. *)
Inductive callback_result : Type :=
| CallbackToken (accessToken : string)
| CallbackError (error : string).

(** [history.replaceState({}, title, pathname)] leaves the path and
    drops the fragment. *)
Definition handleOAuthCallback (this : client) (loc : location)
  : callback_result * client * location :=
  let hash := substring_from_1 (hash loc) in
  let accessToken := URLSearchParams_get hash "access_token" in
  match accessToken with
  | Some t =>
      if String.eqb t EmptyString
      then (CallbackError "No access token found", this, loc)
      else
        (CallbackToken t,
         {| api := {| token := Some t; isAuthenticated := true |};
            userInfo := userInfo this |},
         {| pathname := pathname loc; hash := EmptyString |})
  | None => (CallbackError "No access token found", this, loc)
  end.

(** The login service: [fetch_info t w] answers the request that carries
    token [t], or rejects. *)
Variable World : Type.

Record info_response : Type := { info_status : Z; info_json : option Info }.

Variable fetch_info : string -> World -> option info_response * World.

Definition info_ok (r : info_response) : bool :=
  (200 <=? info_status r) && (info_status r <=? 299).

Definition getUserInfo (this : client) (w : World)
  : result Info * client * World :=
  match token (api this) with
  | None => (Throw (Error "No token provided"), this, w)
  | Some t =>
      if String.eqb t EmptyString
      then (Throw (Error "No token provided"), this, w)
      else
        let (answer, w') := fetch_info t w in
        match answer with
        | None => (Throw TypeError, this, w')
        | Some response =>
            if negb (info_ok response)
            then (Throw (ErrorStatus "HTTP" (info_status response)), this, w')
            else
              match info_json response with
              | None => (Throw SyntaxError, this, w')
              | Some info =>
                  (Ok info, {| api := api this; userInfo := Some info |}, w')
              end
        end
  end.

(** [{ success, message }]: the message is a fixed text on success and
    the text of the caught error after a fixed prefix otherwise. *)
Inductive connection : Type :=
| Connected
| NotConnected (e : error).

Definition testConnection (this : client) (w : World)
  : connection * client * World :=
  match getUserInfo this w with
  | (Ok _, this', w') => (Connected, this', w')
  | (Throw e, this', w') => (NotConnected e, this', w')
  end.

(** The clients a page can hold: made by the constructor and changed by
    the methods above only. *)
Inductive reachable : client -> Prop :=
| reach_new : reachable new_client
| reach_init (this : client) (tok : option string) :
    reachable this -> reachable (init this tok)
| reach_logout (this : client) : reachable this -> reachable (logout this)
| reach_callback (this : client) (loc : location) :
    reachable this -> reachable (snd (fst (handleOAuthCallback this loc)))
| reach_info (this : client) (w : World) :
    reachable this -> reachable (snd (fst (getUserInfo this w)))
| reach_test (this : client) (w : World) :
    reachable this -> reachable (snd (fst (testConnection this w))).

End Client.

Arguments api {Info} c.
Arguments userInfo {Info} c.
Arguments new_client {Info}.
Arguments init {Info} this tok.
Arguments logout {Info} this.
Arguments handleOAuthCallback {Info} URLSearchParams_get this loc.
Arguments getUserInfo {Info World} fetch_info this w.
Arguments testConnection {Info World} fetch_info this w.
Arguments reachable {Info} URLSearchParams_get {World} fetch_info c.
Arguments info_status {Info} i.
Arguments info_json {Info} i.
Arguments info_ok {Info} r.

(** The invariant of a client: the flag says whether the token passes
    the guard of the transfer methods. *)
Definition consistent {Info : Type} (c : client Info) : Prop :=
  isAuthenticated (api c) = has_token (token (api c)).

(** ** Query strings

    One instance of [URLSearchParams]: fields separated by ["&"], name
    and value by the first ["="], without decoding of ["%"] and ["+"]. *)

Module Query.

Fixpoint split (c : ascii) (s : string) : list string :=
  match s with
  | EmptyString => [EmptyString]
  | String c' s' =>
      if Ascii.eqb c' c then EmptyString :: split c s'
      else
        match split c s' with
        | [] => [String c' EmptyString]
        | w :: ws => String c' w :: ws
        end
  end.

Fixpoint name_value (field : string) : string * string :=
  match field with
  | EmptyString => (EmptyString, EmptyString)
  | String c rest =>
      if Ascii.eqb c "=" then (EmptyString, rest)
      else let (n, v) := name_value rest in (String c n, v)
  end.

Definition get (q name : string) : option string :=
  let fields := filter (fun f => negb (String.eqb f EmptyString)) (split "&" q) in
  option_map snd
    (find (fun nv => String.eqb (fst nv) name) (map name_value fields)).

End Query.

(** A login service that is down, for running a client. *)
Definition offline (t : string) (w : unit) : option (info_response string) * unit :=
  (None, w).

(** [s.includes(c)] for a character [c]. *)
Fixpoint includes_char (s : string) (c : ascii) : bool :=
  match s with
  | EmptyString => false
  | String c' rest => Ascii.eqb c' c || includes_char rest c
  end.

(** ** The record store ([js/modules/storage.js])

    [localStorage] holds one item per collection.  An item is absent (or
    the empty string), or a text [JSON.parse] rejects, or the JSON text of
    a list, kept as the list it denotes.  [writable] is false when the
    quota is exhausted and [setItem] throws. *)

Module Storage.

Inductive item (A : Type) : Type :=
| NoItem
| Unparsable
| Item (a : A).
Arguments NoItem {A}.
Arguments Unparsable {A}.
Arguments Item {A} a.

Record localStorage : Type := {
  workouts_item : item (list (nullable Workout.t));
  recentExercises_item : item (list string);
  bodyAnalyses_item : item (list (nullable BodyAnalysis.t));
  writable : bool
}.

(** The fields of [StorageManager]: what was last loaded or saved, [null]
    at first. *)
Record manager : Type := {
  this_workouts : option (list (nullable Workout.t));
  this_recentExercises : option (list string);
  this_bodyAnalyses : option (list (nullable BodyAnalysis.t))
}.

Definition state : Type := manager * localStorage.

Definition new_manager : manager :=
  {| this_workouts := None; this_recentExercises := None; this_bodyAnalyses := None |}.

(** [saved ? JSON.parse(saved) : []], with the [catch] that answers [[]]. *)
Definition parse_or_empty {A : Type} (saved : item (list A)) : list A :=
  match saved with
  | Item l => l
  | NoItem | Unparsable => []
  end.

Definition loadWorkouts (st : state) : list (nullable Workout.t) * state :=
  let (this, ls) := st in
  let loaded := parse_or_empty (workouts_item ls) in
  (loaded,
   ({| this_workouts := Some loaded;
       this_recentExercises := this_recentExercises this;
       this_bodyAnalyses := this_bodyAnalyses this |}, ls)).

Definition saveWorkouts (w : list (nullable Workout.t)) (st : state) : bool * state :=
  let (this, ls) := st in
  let this' := {| this_workouts := Some w;
                  this_recentExercises := this_recentExercises this;
                  this_bodyAnalyses := this_bodyAnalyses this |} in
  if writable ls
  then (true, (this', {| workouts_item := Item w;
                         recentExercises_item := recentExercises_item ls;
                         bodyAnalyses_item := bodyAnalyses_item ls;
                         writable := writable ls |}))
  else (false, (this', ls)).

Definition loadRecentExercises (st : state) : list string * state :=
  let (this, ls) := st in
  let loaded := parse_or_empty (recentExercises_item ls) in
  (loaded,
   ({| this_workouts := this_workouts this;
       this_recentExercises := Some loaded;
       this_bodyAnalyses := this_bodyAnalyses this |}, ls)).

Definition saveRecentExercises (exercises : list string) (st : state) : bool * state :=
  let (this, ls) := st in
  let this' := {| this_workouts := this_workouts this;
                  this_recentExercises := Some exercises;
                  this_bodyAnalyses := this_bodyAnalyses this |} in
  if writable ls
  then (true, (this', {| workouts_item := workouts_item ls;
                         recentExercises_item := Item exercises;
                         bodyAnalyses_item := bodyAnalyses_item ls;
                         writable := writable ls |}))
  else (false, (this', ls)).

Definition addRecentExercise (exerciseName : string) (st : state) : bool * state :=
  let (recent, st1) := loadRecentExercises st in
  let updated :=
    firstn 10
      (exerciseName :: filter (fun e => negb (String.eqb e exerciseName)) recent) in
  saveRecentExercises updated st1.

Definition loadBodyAnalyses (st : state) : list (nullable BodyAnalysis.t) * state :=
  let (this, ls) := st in
  let loaded := parse_or_empty (bodyAnalyses_item ls) in
  (loaded,
   ({| this_workouts := this_workouts this;
       this_recentExercises := this_recentExercises this;
       this_bodyAnalyses := Some loaded |}, ls)).

Definition saveBodyAnalyses (analyses : list (nullable BodyAnalysis.t)) (st : state)
  : bool * state :=
  let (this, ls) := st in
  let this' := {| this_workouts := this_workouts this;
                  this_recentExercises := this_recentExercises this;
                  this_bodyAnalyses := Some analyses |} in
  if writable ls
  then (true, (this', {| workouts_item := workouts_item ls;
                         recentExercises_item := recentExercises_item ls;
                         bodyAnalyses_item := Item analyses;
                         writable := writable ls |}))
  else (false, (this', ls)).

(** [clearAll]: [removeItem] does not write and works on a full store. *)
Definition clearAll (st : state) : bool * state :=
  let (this, ls) := st in
  (true,
   ({| this_workouts := Some []; this_recentExercises := Some [];
       this_bodyAnalyses := Some [] |},
    {| workouts_item := NoItem; recentExercises_item := NoItem;
       bodyAnalyses_item := NoItem; writable := writable ls |})).

(** [exportData]: [now] is [new Date().toISOString()].  The text is kept
    as the document it denotes. *)
Definition exportData (now : string) (st : state) : payload * state :=
  let (w, st1) := loadWorkouts st in
  let (r, st2) := loadRecentExercises st1 in
  let (b, st3) := loadBodyAnalyses st2 in
  (JSON_stringify
     (Some {| workouts := Some w;
              recentExercises := Some r;
              bodyAnalyses := Some b;
              others := [("exportDate", VStr now)] |}),
   st3).

(** [importData]: [jsonData] is [None] when [JSON.parse] rejects the
    text.  A collection is saved when the document has it; what the
    saves answer is not looked at. *)
Definition importData (jsonData : option payload) (st : state) : bool * state :=
  match jsonData with
  | None => (false, st)
  | Some (Json None) => (false, st)
  | Some (Json (Some data)) =>
      let st1 :=
        match workouts data with
        | Some w => snd (saveWorkouts w st)
        | None => st
        end in
      let st2 :=
        match recentExercises data with
        | Some r => snd (saveRecentExercises r st1)
        | None => st1
        end in
      let st3 :=
        match bodyAnalyses data with
        | Some b => snd (saveBodyAnalyses b st2)
        | None => st2
        end in
      (true, st3)
  end.

(** A list of recent exercises as the store keeps it: no duplicates, at
    most ten. *)
Definition well_formed_recent (l : list string) : Prop :=
  NoDup l /\ (List.length l <= 10)%nat.

End Storage.

(** A store with two collections filled, and the same store with its
    quota exhausted. *)
Definition sample_store : Storage.state :=
  (Storage.new_manager,
   {| Storage.workouts_item := Storage.Item [Obj Sample.local_a; Obj Sample.workout_b];
      Storage.recentExercises_item := Storage.Item ["Squat"; "Plank"];
      Storage.bodyAnalyses_item := Storage.NoItem;
      Storage.writable := true |}).

Definition full_store : Storage.state :=
  (Storage.new_manager,
   {| Storage.workouts_item := Storage.Unparsable;
      Storage.recentExercises_item := Storage.Item ["Row"];
      Storage.bodyAnalyses_item := Storage.NoItem;
      Storage.writable := false |}).

Definition empty_store : Storage.state :=
  (Storage.new_manager,
   {| Storage.workouts_item := Storage.NoItem;
      Storage.recentExercises_item := Storage.NoItem;
      Storage.bodyAnalyses_item := Storage.NoItem;
      Storage.writable := true |}).

(** ** The validator ([js/utils/validator.js])

    The validator takes any value.  Here a workout, an exercise or a set
    is [Null] (any falsy value) or an object read through the properties
    the validator reads; a property that should hold an array is an
    [array_field].  Messages are kept as the condition they report. *)

Module Validator.

Inductive array_field (A : Type) : Type :=
| Falsy
| NotArray (length : value)
| Array (l : list A).
Arguments Falsy {A}.
Arguments NotArray {A} length.
Arguments Array {A} l.

Record SetObj : Type := { weight : value; reps : value }.

Record ExerciseObj : Type := {
  exercise : value;
  sets : array_field (nullable SetObj)
}.

Record WorkoutObj : Type := { exercises : array_field (nullable ExerciseObj) }.

Inductive set_error : Type :=
| SetEmpty
| WeightNotPositiveNumber
| RepsNotPositiveNumber
| WeightOver1000
| RepsOver100.

Inductive exercise_error : Type :=
| ExerciseEmpty
| NameRequired
| SetsNotArray
| NoSets
| InSet (number : Z) (setErrors : list set_error).

Inductive workout_error : Type :=
| WorkoutEmpty
| ExercisesNotArray
| NoExercises
| TooManyExercises
| InExercise (number : Z) (exerciseErrors : list exercise_error).

Record validation : Type := { isValid : bool; errors : list workout_error }.

(** [typeof v === 'number'], [typeof v === 'string'] *)
Definition is_number (v : value) : bool :=
  match v with
  | VNum _ => true
  | _ => false
  end.

Definition is_string (v : value) : bool :=
  match v with
  | VStr _ => true
  | _ => false
  end.

(** [v.length === 0] *)
Definition is_zero (v : value) : bool :=
  match v with
  | VNum n => n =? 0
  | _ => false
  end.

Section Coercion.

(** [Number(s)] for a string, [None] when it is [NaN]. *)
Variable StringToNumber : string -> option Z.

(** [v < bound] and [v > bound] for a number [bound]. *)
Definition ToNumber (v : value) : option Z :=
  match v with
  | VUndefined => None
  | VNull => Some 0
  | VBool b => Some (if b then 1 else 0)
  | VNum n => Some n
  | VStr s => StringToNumber s
  end.

Definition js_lt (v : value) (bound : Z) : bool :=
  match ToNumber v with
  | Some n => n <? bound
  | None => false
  end.

Definition js_gt (v : value) (bound : Z) : bool :=
  match ToNumber v with
  | Some n => bound <? n
  | None => false
  end.

Definition field_truthy {A : Type} (f : array_field A) : bool :=
  match f with
  | Falsy => false
  | NotArray _ | Array _ => true
  end.

Definition isArray {A : Type} (f : array_field A) : bool :=
  match f with
  | Array _ => true
  | Falsy | NotArray _ => false
  end.

(** [f.length], read only where [f] is truthy. *)
Definition field_length {A : Type} (f : array_field A) : value :=
  match f with
  | Falsy => VUndefined
  | NotArray length => length
  | Array l => VNum (Z.of_nat (List.length l))
  end.

(** [errors.push(e)] under a condition. *)
Definition push_if {E : Type} (condition : bool) (e : E) (errors : list E) : list E :=
  if condition then errors ++ [e] else errors.

Definition validateSet (set : nullable SetObj) : list set_error :=
  match set with
  | Null => [SetEmpty]
  | Obj set =>
      let errors := [] in
      let errors :=
        push_if (negb (is_number (weight set)) || js_lt (weight set) 0)
          WeightNotPositiveNumber errors in
      let errors :=
        push_if (negb (is_number (reps set)) || js_lt (reps set) 0)
          RepsNotPositiveNumber errors in
      let errors := push_if (js_gt (weight set) 1000) WeightOver1000 errors in
      let errors := push_if (js_gt (reps set) 100) RepsOver100 errors in
      errors
  end.

(** [sets.forEach((set, index) => ...)] *)
Fixpoint each_set (sets : list (nullable SetObj)) (index : Z)
  (errors : list exercise_error) : list exercise_error :=
  match sets with
  | [] => errors
  | set :: rest =>
      let setErrors := validateSet set in
      each_set rest (index + 1)
        (push_if (0 <? Z.of_nat (List.length setErrors))
           (InSet (index + 1) setErrors) errors)
  end.

Definition validateExercise (exercise : nullable ExerciseObj)
  : result (list exercise_error) :=
  match exercise with
  | Null => Ok [ExerciseEmpty]
  | Obj ex =>
      let errors := [] in
      let errors :=
        push_if (negb (truthy (Validator.exercise ex))
                 || negb (is_string (Validator.exercise ex)))
          NameRequired errors in
      let errors :=
        push_if (negb (field_truthy (sets ex)) || negb (isArray (sets ex)))
          SetsNotArray errors in
      let errors :=
        push_if (field_truthy (sets ex) && is_zero (field_length (sets ex)))
          NoSets errors in
      match sets ex with
      | Falsy => Ok errors
      | NotArray _ => Throw TypeError
      | Array l => Ok (each_set l 0 errors)
      end
  end.

(** [exercises.forEach((exercise, index) => ...)] *)
Fixpoint each_exercise (exercises : list (nullable ExerciseObj)) (index : Z)
  (errors : list workout_error) : result (list workout_error) :=
  match exercises with
  | [] => Ok errors
  | exercise :: rest =>
      exerciseErrors <- validateExercise exercise ;;
      each_exercise rest (index + 1)
        (push_if (0 <? Z.of_nat (List.length exerciseErrors))
           (InExercise (index + 1) exerciseErrors) errors)
  end.

Definition validateWorkout (workout : nullable WorkoutObj) : result validation :=
  match workout with
  | Null => Ok {| isValid := false; errors := [WorkoutEmpty] |}
  | Obj workout =>
      let errors := [] in
      let errors :=
        push_if (negb (field_truthy (exercises workout))
                 || negb (isArray (exercises workout)))
          ExercisesNotArray errors in
      let errors :=
        push_if (field_truthy (exercises workout)
                 && is_zero (field_length (exercises workout)))
          NoExercises errors in
      let errors :=
        push_if (field_truthy (exercises workout)
                 && js_gt (field_length (exercises workout)) 8)
          TooManyExercises errors in
      errors <-
        match exercises workout with
        | Falsy => Ok errors
        | NotArray _ => Throw TypeError
        | Array l => each_exercise l 0 errors
        end ;;
      Ok {| isValid := Z.of_nat (List.length errors) =? 0; errors := errors |}
  end.

End Coercion.

(** What the validator accepts. *)
Definition valid_set (set : nullable SetObj) : Prop :=
  exists w r, set = Obj {| weight := VNum w; reps := VNum r |}
              /\ 0 <= w <= 1000 /\ 0 <= r <= 100.

Definition valid_exercise (exercise : nullable ExerciseObj) : Prop :=
  exists name l,
    exercise = Obj {| Validator.exercise := VStr name; sets := Array l |}
    /\ name <> EmptyString /\ l <> [] /\ Forall valid_set l.


(** What makes the validator throw: an array expected, and a truthy
    value that is none. *)
Definition breaks_exercise (exercise : nullable ExerciseObj) : Prop :=
  exists ex length, exercise = Obj ex /\ sets ex = NotArray length.


End Validator.

(** A workout record of the store as the validator reads it: only
    [exercises] is looked at. *)
Definition seen_set (s : ExerciseSet) : nullable Validator.SetObj :=
  Obj {| Validator.weight := VNum (weight s); Validator.reps := VNum (reps s) |}.

Definition seen_exercise (e : Exercise) : nullable Validator.ExerciseObj :=
  Obj {| Validator.exercise := VStr (exercise e);
         Validator.sets := Validator.Array (map seen_set (sets e)) |}.

Definition seen_workout (w : Workout.t) : nullable Validator.WorkoutObj :=
  Obj {| Validator.exercises :=
           Validator.Array (map seen_exercise (Workout.exercises w)) |}.

(** The workouts of the data model: one to eight exercises, each named
    and with at least one set, weights within 0..1000 and repetitions
    within 0..100. *)
Definition plausible_set (s : ExerciseSet) : Prop :=
  0 <= weight s <= 1000 /\ 0 <= reps s <= 100.

Definition plausible_exercise (e : Exercise) : Prop :=
  exercise e <> EmptyString /\ sets e <> [] /\ Forall plausible_set (sets e).

Definition plausible_workout (w : Workout.t) : Prop :=
  (1 <= List.length (Workout.exercises w) <= 8)%nat
  /\ Forall plausible_exercise (Workout.exercises w).

(** One instance of [Number] on strings: decimal digits, and zero for
    the empty string; every other string is taken as [NaN]. *)
Definition decimal (s : string) : option Z :=
  match Iso.digits (String.length s) s 0 with
  | Some (n, _) => Some n
  | None => None
  end.

(** * Properties *)

(** ** Keys *)

Lemma value_eqb_eq (x y : value) : value_eqb x y = true <-> x = y.
Proof.
  destruct x, y; simpl; split; intros H; try congruence; try reflexivity.
  - apply Bool.eqb_prop in H. now subst.
  - inversion H. apply Bool.eqb_reflx.
  - apply Z.eqb_eq in H. now subst.
  - inversion H. apply Z.eqb_refl.
  - apply String.eqb_eq in H. now subst.
  - inversion H. apply String.eqb_refl.
Qed.

Lemma value_eqb_refl (x : value) : value_eqb x x = true.
Proof. now apply value_eqb_eq. Qed.

Lemma value_eqb_neq (x y : value) : value_eqb x y = false <-> x <> y.
Proof.
  rewrite <- value_eqb_eq. destruct (value_eqb x y); split; congruence.
Qed.

Lemma value_eq_dec (x y : value) : {x = y} + {x <> y}.
Proof.
  destruct (value_eqb x y) eqn:E.
  - left. now apply value_eqb_eq.
  - right. now apply value_eqb_neq.
Qed.

Ltac key_cases k1 k2 :=
  let E := fresh "E" in
  destruct (value_eqb k1 k2) eqn:E;
  [apply value_eqb_eq in E; try subst | apply value_eqb_neq in E].

(** ** Maps *)

Module JsMapFacts.

Section Facts.

Context {A : Type}.
Implicit Types (m : JsMap.t A) (k : value) (v : A).

Lemma get_set_same m k v : JsMap.get (JsMap.set m k v) k = Some v.
Proof.
  induction m as [|[k' v'] m IH]; simpl.
  - now rewrite value_eqb_refl.
  - destruct (value_eqb k' k) eqn:E; simpl; rewrite E; auto.
Qed.

Lemma get_set_other m k k' v :
  k' <> k -> JsMap.get (JsMap.set m k v) k' = JsMap.get m k'.
Proof.
  intros N. induction m as [|[k0 v0] m IH]; simpl.
  - apply not_eq_sym in N. apply value_eqb_neq in N. now rewrite N.
  - key_cases k0 k; simpl.
    + apply not_eq_sym in N. apply value_eqb_neq in N. now rewrite N.
    + now rewrite IH.
Qed.

Lemma keys_set m k v k' :
  In k' (JsMap.keys (JsMap.set m k v)) <-> k' = k \/ In k' (JsMap.keys m).
Proof.
  unfold JsMap.keys. induction m as [|[k0 v0] m IH]; simpl.
  - intuition congruence.
  - key_cases k0 k; simpl.
    + intuition congruence.
    + rewrite IH. tauto.
Qed.

Lemma get_None m k : JsMap.get m k = None <-> ~ In k (JsMap.keys m).
Proof.
  unfold JsMap.keys. induction m as [|[k0 v0] m IH]; simpl.
  - tauto.
  - key_cases k0 k.
    + split; [discriminate | intros H; exfalso; apply H; now left].
    + rewrite IH. tauto.
Qed.

Lemma get_In m k v : JsMap.get m k = Some v -> In (k, v) m.
Proof.
  induction m as [|[k0 v0] m IH]; simpl; [discriminate|].
  key_cases k0 k.
  - intros [= ->]. now left.
  - intros H. right. auto.
Qed.

Lemma In_get m k v : NoDup (JsMap.keys m) -> In (k, v) m -> JsMap.get m k = Some v.
Proof.
  unfold JsMap.keys. induction m as [|[k0 v0] m IH]; simpl; [tauto|].
  intros ND [H | H].
  - inversion H; subst. now rewrite value_eqb_refl.
  - inversion ND as [|? ? Hnot ND']; subst.
    key_cases k0 k.
    + exfalso. apply Hnot. change k with (fst (k, v)). now apply in_map.
    + auto.
Qed.

Lemma set_fresh m k v : JsMap.get m k = None -> JsMap.set m k v = m ++ [(k, v)].
Proof.
  induction m as [|[k0 v0] m IH]; simpl; [reflexivity|].
  destruct (value_eqb k0 k); [discriminate|].
  intros H. now rewrite IH.
Qed.

Lemma NoDup_keys_set m k v :
  NoDup (JsMap.keys m) -> NoDup (JsMap.keys (JsMap.set m k v)).
Proof.
  unfold JsMap.keys. induction m as [|[k0 v0] m IH]; simpl; intros ND.
  - constructor; [tauto | constructor].
  - inversion ND as [|? ? Hnot ND']; subst.
    key_cases k0 k; simpl.
    + now constructor.
    + constructor; [|auto].
      intros H. apply (keys_set m k v k0) in H. destruct H; [congruence | tauto].
Qed.

(** Every value of the map after [set] is the new one or an old one. *)
Lemma In_set m k v k' v' :
  In (k', v') (JsMap.set m k v) -> (k' = k /\ v' = v) \/ In (k', v') m.
Proof.
  induction m as [|[k0 v0] m IH]; simpl.
  - intros [[= <- <-] | []]. now left.
  - key_cases k0 k; simpl.
    + intros [[= <- <-] | H]; [now left | right; now right].
    + intros [H | H]; [right; now left |].
      destruct (IH H); [now left | right; now right].
Qed.

End Facts.

End JsMapFacts.

(** ** Sorting *)

Section SortFacts.

Context {A : Type}.
Variable cmp : A -> A -> option Z.

Lemma sort_insert_perm (x : A) (l : list A) :
  Permutation (sort_insert cmp x l) (x :: l).
Proof.
  induction l as [|y l IH]; simpl.
  - apply Permutation_refl.
  - destruct (positive_cmp (cmp x y)).
    + eapply perm_trans; [apply perm_skip, IH | apply perm_swap].
    + apply Permutation_refl.
Qed.

Lemma Array_sort_perm (l : list A) : Permutation (Array_sort cmp l) l.
Proof.
  induction l as [|x l IH]; simpl.
  - constructor.
  - eapply perm_trans; [apply sort_insert_perm | now apply perm_skip].
Qed.

Lemma Array_sort_In (l : list A) (x : A) : In x (Array_sort cmp l) <-> In x l.
Proof.
  split; apply Permutation_in; [|apply Permutation_sym]; apply Array_sort_perm.
Qed.

End SortFacts.

Section NewestFirst.

Context {A : Type}.
Variable order : A -> Date.

Lemma newer_or_same_trans (a b c : A) :
  newer_or_same order a b -> newer_or_same order b c -> newer_or_same order a c.
Proof.
  unfold newer_or_same.
  destruct (order a), (order b), (order c); try tauto. lia.
Qed.

Lemma insert_newest_first (x : A) (l : list A) :
  dated order x -> Forall (dated order) l ->
  StronglySorted (newer_or_same order) l ->
  StronglySorted (newer_or_same order) (sort_insert (newest_first order) x l).
Proof.
  intros Dx Dl Sl. induction Sl as [|y l Sl IH Hy]; simpl.
  - constructor; constructor.
  - inversion Dl as [|? ? Dy Dl']; subst.
    unfold dated in *. simpl. unfold newest_first at 1. unfold Date_sub.
    destruct (order x) as [tx|] eqn:Ex; [|congruence].
    destruct (order y) as [ty|] eqn:Ey; [|congruence].
    simpl. destruct (Z.ltb_spec 0 (ty - tx)) as [Hlt | Hge].
    + constructor; [now apply IH|].
      eapply Permutation_Forall; [apply Permutation_sym, sort_insert_perm|].
      constructor; [|assumption].
      unfold newer_or_same. rewrite Ex, Ey. lia.
    + assert (Hxy : newer_or_same order x y).
      { unfold newer_or_same. rewrite Ex, Ey. lia. }
      constructor; [now constructor|].
      constructor; [assumption|].
      eapply Forall_impl; [|exact Hy].
      intros z Hz. now apply newer_or_same_trans with y.
Qed.

Lemma Array_sort_newest_first (l : list A) :
  Forall (dated order) l ->
  StronglySorted (newer_or_same order) (Array_sort (newest_first order) l).
Proof.
  induction l as [|x l IH]; simpl; intros D.
  - constructor.
  - inversion D; subst. apply insert_newest_first; auto.
    eapply Permutation_Forall; [apply Permutation_sym, Array_sort_perm | assumption].
Qed.

End NewestFirst.

(** ** Iterating over record objects *)

Lemma forEach_objs {A S : Type} (g : S -> nullable A -> result S) (f : S -> A -> S) :
  (forall s a, g s (Obj a) = Ok (f s a)) ->
  forall (l : list A) (s : S), forEach g (map Obj l) s = Ok (fold_left f l s).
Proof.
  intros H l. induction l as [|a l IH]; intros s; simpl.
  - reflexivity.
  - rewrite H. simpl. apply IH.
Qed.

Lemma forEach_null {A S : Type} (g : S -> nullable A -> result S) :
  (forall s, g s Null = Throw TypeError) ->
  (forall s a e, g s (Obj a) <> Throw e) ->
  forall (l : list (nullable A)) (s : S),
    In Null l -> forEach g l s = Throw TypeError.
Proof.
  intros HN HO l. induction l as [|o l IH]; intros s; simpl; [tauto|].
  intros [-> | H].
  - now rewrite HN.
  - destruct o as [|a].
    + now rewrite HN.
    + destruct (g s (Obj a)) eqn:E; simpl; [now apply IH | now apply HO in E].
Qed.

(** ** Records by key *)

Section KeyFacts.

Context {A : Type}.
Variable key : A -> value.

Implicit Types (m : JsMap.t A) (a b x : A) (l r : list A) (k : value).

Lemma lookup_None k l : lookup key k l = None <-> ~ In k (map key l).
Proof.
  unfold lookup. induction l as [|a l IH]; simpl; [tauto|].
  key_cases (key a) k.
  - split; [discriminate | intros H; exfalso; apply H; now left].
  - rewrite IH. tauto.
Qed.

Lemma lookup_Some k l a : lookup key k l = Some a -> In a l /\ key a = k.
Proof.
  unfold lookup. intros H. apply find_some in H.
  destruct H as [H1 H2]. now apply value_eqb_eq in H2.
Qed.

Lemma lookup_In l a : NoDup (map key l) -> In a l -> lookup key (key a) l = Some a.
Proof.
  unfold lookup. induction l as [|b l IH]; simpl; [tauto|].
  intros ND [-> | H].
  - now rewrite value_eqb_refl.
  - inversion ND as [|? ? Hnot ND']; subst.
    key_cases (key b) (key a).
    + exfalso. apply Hnot. rewrite E. now apply in_map.
    + auto.
Qed.

Lemma keyed_set m a : keyed key m -> keyed key (JsMap.set m (key a) a).
Proof.
  unfold keyed. induction m as [|[k0 v0] m IH]; simpl; intros H.
  - constructor; [reflexivity | constructor].
  - inversion H; subst. key_cases k0 (key a); constructor; simpl; auto.
Qed.

Lemma keyed_values m : keyed key m -> map key (JsMap.values m) = JsMap.keys m.
Proof.
  unfold keyed, JsMap.values, JsMap.keys.
  induction m as [|[k0 v0] m IH]; simpl; intros H.
  - reflexivity.
  - inversion H as [|? ? H0 H1]; subst. simpl in H0. rewrite IH by assumption.
    now rewrite H0.
Qed.

(** The first pass: invariants, and what it files under a key. *)

Lemma local_pass_inv l m :
  keyed key m -> NoDup (JsMap.keys m) ->
  keyed key (fold_left (put_local key) l m)
  /\ NoDup (JsMap.keys (fold_left (put_local key) l m))
  /\ (forall k, In k (JsMap.keys (fold_left (put_local key) l m))
                <-> In k (JsMap.keys m) \/ In k (map key l)).
Proof.
  revert m. induction l as [|a l IH]; simpl; intros m K N.
  - split; [|split]; auto. tauto.
  - destruct (IH (put_local key m a)) as (K' & N' & I').
    + now apply keyed_set.
    + now apply JsMapFacts.NoDup_keys_set.
    + split; [|split]; auto. intros k. rewrite I'. unfold put_local.
      rewrite JsMapFacts.keys_set. intuition congruence.
Qed.

Lemma local_pass_get l m k :
  NoDup (map key l) ->
  JsMap.get (fold_left (put_local key) l m) k
  = match lookup key k l with
    | Some a => Some a
    | None => JsMap.get m k
    end.
Proof.
  revert m. induction l as [|a l IH]; simpl; intros m ND; [reflexivity|].
  inversion ND as [|? ? Hnot ND']; subst.
  rewrite IH by assumption. unfold lookup; simpl. fold (lookup key k l).
  key_cases (key a) k.
  - apply lookup_None in Hnot. rewrite Hnot. unfold put_local.
    apply JsMapFacts.get_set_same.
  - destruct (lookup key k l); [reflexivity|].
    unfold put_local. apply JsMapFacts.get_set_other. congruence.
Qed.

Lemma local_pass_skips l m k :
  ~ In k (map key l) ->
  JsMap.get (fold_left (put_local key) l m) k = JsMap.get m k.
Proof.
  revert m. induction l as [|a l IH]; simpl; intros m N; [reflexivity|].
  rewrite IH by tauto. unfold put_local.
  apply JsMapFacts.get_set_other. intros ->. tauto.
Qed.

Lemma set_values_Forall (P : A -> Prop) m a :
  Forall P (JsMap.values m) -> P a -> Forall P (JsMap.values (JsMap.set m (key a) a)).
Proof.
  unfold JsMap.values. rewrite !Forall_forall. intros Hm Ha x Hx.
  apply in_map_iff in Hx. destruct Hx as ([k v] & <- & Hin).
  apply JsMapFacts.In_set in Hin. destruct Hin as [[_ ->] | Hin]; [exact Ha|].
  apply Hm. apply in_map_iff. now exists (k, v).
Qed.

Lemma local_pass_Forall (P : A -> Prop) l m :
  Forall P (JsMap.values m) -> Forall P l ->
  Forall P (JsMap.values (fold_left (put_local key) l m)).
Proof.
  revert m. induction l as [|a l IH]; simpl; intros m Hm Hl; [exact Hm|].
  inversion Hl; subst. apply IH; [|assumption]. now apply set_values_Forall.
Qed.

(** A record alone under its key stays filed once it is. *)

Lemma put_local_keeps m a x :
  (key a = key x -> a = x) ->
  JsMap.get m (key x) = Some x ->
  JsMap.get (put_local key m a) (key x) = Some x.
Proof.
  intros Ha G. unfold put_local.
  destruct (value_eq_dec (key a) (key x)) as [E | N].
  - rewrite (Ha E). apply JsMapFacts.get_set_same.
  - rewrite JsMapFacts.get_set_other by congruence. exact G.
Qed.

Lemma local_pass_keeps l m x :
  alone_in key x l -> JsMap.get m (key x) = Some x ->
  JsMap.get (fold_left (put_local key) l m) (key x) = Some x.
Proof.
  revert m. induction l as [|a l IH]; simpl; intros m Hl G; [exact G|].
  apply IH.
  - intros b Hb. apply Hl. now right.
  - apply put_local_keeps; [|exact G]. apply Hl. now left.
Qed.

Lemma local_pass_files l m x :
  alone_in key x l -> In x l ->
  JsMap.get (fold_left (put_local key) l m) (key x) = Some x.
Proof.
  revert m. induction l as [|a l IH]; simpl; intros m Hl Hin; [tauto|].
  assert (Hl' : alone_in key x l) by (intros b Hb; apply Hl; now right).
  destruct (value_eq_dec (key a) (key x)) as [E | N].
  - apply local_pass_keeps; [exact Hl'|].
    rewrite (Hl a (or_introl eq_refl) E). apply JsMapFacts.get_set_same.
  - destruct Hin as [-> | Hin]; [congruence|]. now apply IH.
Qed.

End KeyFacts.

Lemma Date_gt_irrefl (d : Date) : Date_gt d d = false.
Proof. destruct d; simpl; [apply Z.ltb_irrefl | reflexivity]. Qed.

(** ** The merged map *)

Section MergeFacts.

Context {A : Type}.
Variable key : A -> value.
Variable stamp : A -> Date.

Implicit Types (m : JsMap.t A) (a b x : A) (l r : list A) (k : value).

Lemma keyed_put_remote m a : keyed key m -> keyed key (put_remote key stamp m a).
Proof.
  intros H. unfold put_remote.
  destruct (JsMap.get m (key a)); [destruct (Date_gt _ _)|];
    auto using keyed_set.
Qed.

Lemma NoDup_put_remote m a :
  NoDup (JsMap.keys m) -> NoDup (JsMap.keys (put_remote key stamp m a)).
Proof.
  intros H. unfold put_remote.
  destruct (JsMap.get m (key a)); [destruct (Date_gt _ _)|];
    auto using JsMapFacts.NoDup_keys_set.
Qed.

Lemma keys_put_remote m a k :
  In k (JsMap.keys (put_remote key stamp m a)) <-> k = key a \/ In k (JsMap.keys m).
Proof.
  unfold put_remote. destruct (JsMap.get m (key a)) as [e|] eqn:G.
  - assert (Hin : In (key a) (JsMap.keys m)).
    { destruct (in_dec value_eq_dec (key a) (JsMap.keys m)) as [i|n]; [exact i|].
      apply JsMapFacts.get_None in n. congruence. }
    destruct (Date_gt _ _).
    + apply JsMapFacts.keys_set.
    + split; [tauto | intros [-> | H]; assumption].
  - apply JsMapFacts.keys_set.
Qed.

Lemma remote_pass_inv r m :
  keyed key m -> NoDup (JsMap.keys m) ->
  keyed key (fold_left (put_remote key stamp) r m)
  /\ NoDup (JsMap.keys (fold_left (put_remote key stamp) r m))
  /\ (forall k, In k (JsMap.keys (fold_left (put_remote key stamp) r m))
                <-> In k (JsMap.keys m) \/ In k (map key r)).
Proof.
  revert m. induction r as [|a r IH]; simpl; intros m K N.
  - split; [|split]; auto. tauto.
  - destruct (IH (put_remote key stamp m a)) as (K' & N' & I').
    + now apply keyed_put_remote.
    + now apply NoDup_put_remote.
    + split; [|split]; auto. intros k. rewrite I', keys_put_remote. intuition congruence.
Qed.

Lemma merged_map_inv l r :
  keyed key (merged_map key stamp l r)
  /\ NoDup (JsMap.keys (merged_map key stamp l r))
  /\ (forall k, In k (JsMap.keys (merged_map key stamp l r))
                <-> In k (map key l) \/ In k (map key r)).
Proof.
  unfold merged_map.
  destruct (local_pass_inv key l JsMap.empty) as (K & N & I);
    [constructor | constructor |].
  destruct (remote_pass_inv r _ K N) as (K' & N' & I').
  split; [|split]; auto. intros k. rewrite I', I. simpl. tauto.
Qed.

(** What the second pass files under a key, when no key is repeated in
    the list it walks. *)

Lemma put_remote_get_same m a :
  JsMap.get (put_remote key stamp m a) (key a)
  = Some (resolve stamp (JsMap.get m (key a)) a).
Proof.
  unfold put_remote, resolve.
  destruct (JsMap.get m (key a)) as [e|] eqn:G.
  - destruct (Date_gt _ _); [apply JsMapFacts.get_set_same | exact G].
  - apply JsMapFacts.get_set_same.
Qed.

Lemma put_remote_get_other m a k :
  k <> key a -> JsMap.get (put_remote key stamp m a) k = JsMap.get m k.
Proof.
  intros N. unfold put_remote.
  destruct (JsMap.get m (key a)); [destruct (Date_gt _ _)|];
    auto using JsMapFacts.get_set_other.
Qed.

Lemma remote_pass_get r m k :
  NoDup (map key r) ->
  JsMap.get (fold_left (put_remote key stamp) r m) k
  = match lookup key k r with
    | Some b => Some (resolve stamp (JsMap.get m k) b)
    | None => JsMap.get m k
    end.
Proof.
  revert m. induction r as [|b r IH]; simpl; intros m ND; [reflexivity|].
  inversion ND as [|? ? Hnot ND']; subst.
  rewrite IH by assumption. unfold lookup; simpl. fold (lookup key k r).
  key_cases (key b) k.
  - apply (lookup_None key) in Hnot. rewrite Hnot. apply put_remote_get_same.
  - rewrite put_remote_get_other by congruence. reflexivity.
Qed.

Lemma merged_map_get l r k :
  NoDup (map key l) -> NoDup (map key r) ->
  JsMap.get (merged_map key stamp l r) k
  = match lookup key k r with
    | Some b => Some (resolve stamp (lookup key k l) b)
    | None => lookup key k l
    end.
Proof.
  intros Nl Nr. unfold merged_map.
  rewrite remote_pass_get by assumption.
  rewrite local_pass_get by assumption.
  simpl. destruct (lookup key k l); reflexivity.
Qed.

(** The passes only ever file records of the lists they walk. *)

Lemma remote_pass_Forall (P : A -> Prop) r m :
  Forall P (JsMap.values m) -> Forall P r ->
  Forall P (JsMap.values (fold_left (put_remote key stamp) r m)).
Proof.
  revert m. induction r as [|a r IH]; simpl; intros m Hm Hr; [exact Hm|].
  inversion Hr; subst. apply IH; [|assumption]. unfold put_remote.
  destruct (JsMap.get m (key a)); [destruct (Date_gt _ _)|];
    auto using set_values_Forall.
Qed.

Lemma merged_map_Forall (P : A -> Prop) l r :
  Forall P l -> Forall P r -> Forall P (JsMap.values (merged_map key stamp l r)).
Proof.
  intros Hl Hr. unfold merged_map.
  apply remote_pass_Forall; [|assumption].
  apply local_pass_Forall; [constructor | assumption].
Qed.

(** A record that shares its key with no other record survives both
    passes, whatever else the lists hold. *)

Lemma put_remote_keeps m a x :
  (key a = key x -> a = x) ->
  JsMap.get m (key x) = Some x ->
  JsMap.get (put_remote key stamp m a) (key x) = Some x.
Proof.
  intros Ha G.
  destruct (value_eq_dec (key a) (key x)) as [E | N].
  - rewrite (Ha E). rewrite put_remote_get_same, G. simpl.
    now rewrite Date_gt_irrefl.
  - rewrite put_remote_get_other by congruence. exact G.
Qed.

Lemma remote_pass_keeps r m x :
  alone_in key x r -> JsMap.get m (key x) = Some x ->
  JsMap.get (fold_left (put_remote key stamp) r m) (key x) = Some x.
Proof.
  revert m. induction r as [|a r IH]; simpl; intros m Hr G; [exact G|].
  apply IH.
  - intros b Hb. apply Hr. now right.
  - apply put_remote_keeps; [|exact G]. apply Hr. now left.
Qed.

Lemma remote_pass_files r m x :
  alone_in key x r -> In x r ->
  JsMap.get m (key x) = None \/ JsMap.get m (key x) = Some x ->
  JsMap.get (fold_left (put_remote key stamp) r m) (key x) = Some x.
Proof.
  revert m. induction r as [|a r IH]; simpl; intros m Hr Hin G; [tauto|].
  assert (Hr' : alone_in key x r) by (intros b Hb; apply Hr; now right).
  destruct (value_eq_dec (key a) (key x)) as [E | N].
  - apply remote_pass_keeps; [exact Hr'|].
    rewrite (Hr a (or_introl eq_refl) E). rewrite put_remote_get_same.
    destruct G as [-> | ->]; simpl; [reflexivity | now rewrite Date_gt_irrefl].
  - destruct Hin as [-> | Hin]; [congruence|].
    apply IH; auto. now rewrite put_remote_get_other by congruence.
Qed.

Lemma merged_map_alone l r x :
  alone_in key x (l ++ r) -> In x (l ++ r) ->
  JsMap.get (merged_map key stamp l r) (key x) = Some x.
Proof.
  intros Hal Hin. unfold merged_map.
  assert (Hl : alone_in key x l) by (intros a Ha; apply Hal, in_or_app; now left).
  assert (Hr : alone_in key x r) by (intros a Ha; apply Hal, in_or_app; now right).
  destruct (in_dec value_eq_dec (key x) (map key l)) as [Il | Nl].
  - apply remote_pass_keeps; [exact Hr|].
    apply in_map_iff in Il. destruct Il as (a & E & Ia).
    rewrite (Hl a Ia E) in Ia. now apply local_pass_files.
  - apply in_app_or in Hin. destruct Hin as [Hin | Hin].
    + exfalso. apply Nl. now apply in_map.
    + apply remote_pass_files; [exact Hr | exact Hin |].
      left. now rewrite local_pass_skips.
Qed.

End MergeFacts.

(** ** What [merge_records] guarantees *)

Section MergeGuarantees.

Context {A : Type}.
Variable key : A -> value.
Variable stamp : A -> Date.
Variable order : A -> Date.

Implicit Types (a b x : A) (l r : list A).

(** A record is in the merged list exactly when the merged map files it
    under its key. *)
Lemma merge_records_In l r x :
  In x (merge_records key stamp order l r)
  <-> JsMap.get (merged_map key stamp l r) (key x) = Some x.
Proof.
  unfold merge_records. rewrite Array_sort_In.
  destruct (merged_map_inv key stamp l r) as (K & N & _).
  unfold JsMap.values. rewrite in_map_iff. split.
  - intros ([k v] & <- & H). simpl.
    unfold keyed in K. rewrite Forall_forall in K.
    specialize (K _ H). simpl in K. subst k. now apply JsMapFacts.In_get.
  - intros H. exists (key x, x). split; [reflexivity | now apply JsMapFacts.get_In].
Qed.

Lemma resolve_later a b : later_wins_local_on_tie stamp a b (resolve stamp (Some a) b).
Proof.
  intros tl tr Ha Hb. unfold resolve. rewrite Ha, Hb. simpl.
  destruct (Z.ltb_spec tl tr); repeat split; intros; try reflexivity; lia.
Qed.

Lemma resolve_key a b : key a = key b -> key (resolve stamp (Some a) b) = key b.
Proof. intros E. unfold resolve. now destruct (Date_gt _ _). Qed.

Lemma merge_records_conflict l r a b :
  NoDup (map key l) -> NoDup (map key r) ->
  In a l -> In b r -> key a = key b ->
  sole_survivor key (merge_records key stamp order l r) (resolve stamp (Some a) b).
Proof.
  intros Nl Nr Ia Ib E.
  assert (G : JsMap.get (merged_map key stamp l r) (key b)
              = Some (resolve stamp (Some a) b)).
  { rewrite merged_map_get by assumption.
    rewrite (lookup_In key r b Nr Ib). rewrite <- E.
    now rewrite (lookup_In key l a Nl Ia). }
  split.
  - apply merge_records_In. now rewrite resolve_key.
  - intros x Hx Ex. apply merge_records_In in Hx.
    rewrite Ex, resolve_key, G in Hx by assumption. congruence.
Qed.

Lemma merge_records_ids l r k :
  In k (map key (merge_records key stamp order l r))
  <-> In k (map key l) \/ In k (map key r).
Proof.
  destruct (merged_map_inv key stamp l r) as (K & _ & I).
  rewrite <- I, <- (keyed_values key _ K). unfold merge_records.
  split; apply Permutation_in, Permutation_map;
    [|apply Permutation_sym]; apply Array_sort_perm.
Qed.

Lemma merge_records_NoDup_ids l r :
  NoDup (map key (merge_records key stamp order l r)).
Proof.
  destruct (merged_map_inv key stamp l r) as (K & N & _).
  rewrite <- (keyed_values key _ K) in N. unfold merge_records.
  eapply Permutation_NoDup; [|exact N].
  apply Permutation_map, Permutation_sym, Array_sort_perm.
Qed.

Lemma merge_records_local_only l r a :
  NoDup (map key l) -> NoDup (map key r) ->
  In a l -> ~ In (key a) (map key r) ->
  In a (merge_records key stamp order l r).
Proof.
  intros Nl Nr Ia Na. apply merge_records_In.
  rewrite merged_map_get by assumption.
  apply lookup_None in Na. rewrite Na. now apply lookup_In.
Qed.

Lemma merge_records_remote_only l r b :
  NoDup (map key l) -> NoDup (map key r) ->
  In b r -> ~ In (key b) (map key l) ->
  In b (merge_records key stamp order l r).
Proof.
  intros Nl Nr Ib Nb. apply merge_records_In.
  rewrite merged_map_get by assumption.
  rewrite (lookup_In key r b Nr Ib).
  apply lookup_None in Nb. now rewrite Nb.
Qed.

Lemma merge_records_alone l r x :
  alone_in key x (l ++ r) -> In x (l ++ r) ->
  In x (merge_records key stamp order l r).
Proof.
  intros Hal Hin. apply merge_records_In. now apply merged_map_alone.
Qed.

Lemma merge_records_same l :
  NoDup (map key l) -> Permutation (merge_records key stamp order l l) l.
Proof.
  intros Nl. apply NoDup_Permutation.
  - eapply NoDup_map_inv. apply merge_records_NoDup_ids.
  - eapply NoDup_map_inv. exact Nl.
  - intros x. rewrite merge_records_In, merged_map_get by assumption. split.
    + destruct (lookup key (key x) l) as [b|] eqn:L; [|discriminate].
      apply lookup_Some in L. destruct L as [Ib _].
      simpl. rewrite Date_gt_irrefl. now intros [= <-].
    + intros Ix. rewrite (lookup_In key l x Nl Ix). simpl.
      now rewrite Date_gt_irrefl.
Qed.

Lemma merge_records_sorted l r :
  Forall (dated order) l -> Forall (dated order) r ->
  StronglySorted (newer_or_same order) (merge_records key stamp order l r).
Proof.
  intros Dl Dr. unfold merge_records.
  apply Array_sort_newest_first. now apply merged_map_Forall.
Qed.

End MergeGuarantees.

(** ** The two record merges compute [merge_records] *)

Section ReconcilerFacts.

Variable Date_parse : string -> Date.

Lemma mergeWorkouts_objs (l r : list Workout.t) :
  mergeWorkouts Date_parse (map Obj l) (map Obj r)
  = Ok (merge_workout_records Date_parse l r).
Proof.
  unfold mergeWorkouts.
  rewrite (forEach_objs _ (put_local Workout.id)) by reflexivity. simpl.
  rewrite (forEach_objs _ (put_remote Workout.id (workoutStamp Date_parse))).
  - reflexivity.
  - intros m a. simpl. unfold put_remote, workoutStamp.
    destruct (JsMap.get m (Workout.id a)); [destruct (Date_gt _ _)|]; reflexivity.
Qed.

Lemma mergeBodyAnalyses_objs (l r : list BodyAnalysis.t) :
  mergeBodyAnalyses Date_parse (map Obj l) (map Obj r)
  = Ok (merge_analysis_records Date_parse l r).
Proof.
  unfold mergeBodyAnalyses.
  rewrite (forEach_objs _ (put_local BodyAnalysis.id)) by reflexivity. simpl.
  rewrite (forEach_objs _ (put_remote BodyAnalysis.id (analysisStamp Date_parse))).
  - reflexivity.
  - intros m a. simpl. unfold put_remote, analysisStamp.
    destruct (JsMap.get m (BodyAnalysis.id a)); [destruct (Date_gt _ _)|]; reflexivity.
Qed.

End ReconcilerFacts.

(** ** The reconciler on record objects *)

(** The scenarios of the specification, run. *)

Example scenario_remote_newer :
  mergeWorkouts Iso.parse [Obj Sample.local_a] [Obj Sample.remote_a]
  = Ok [Sample.remote_a].
Proof. reflexivity. Qed.

Example scenario_disjoint :
  mergeWorkouts Iso.parse [Obj Sample.local_a] [Obj Sample.workout_b]
  = Ok [Sample.workout_b; Sample.local_a].
Proof. reflexivity. Qed.

Example scenario_ids_only :
  mergeWorkouts Iso.parse
    [Obj (Sample.workout (VStr "a") VUndefined VUndefined)]
    [Obj (Sample.workout (VStr "b") VUndefined VUndefined)]
  = Ok [Sample.workout (VStr "a") VUndefined VUndefined;
        Sample.workout (VStr "b") VUndefined VUndefined].
Proof. reflexivity. Qed.

Example scenario_tie :
  mergeWorkouts Iso.parse [Obj Sample.local_a]
    [Obj (Sample.workout (VStr "a") (VStr "2030-01-01") (VStr "2024-01-01"))]
  = Ok [Sample.local_a].
Proof. reflexivity. Qed.

(** An array of records holds a [null], or record objects only. *)
Lemma nullable_split {A : Type} (l : list (nullable A)) :
  In Null l \/ exists l', l = map Obj l'.
Proof.
  induction l as [|[|a] l IH].
  - right. now exists [].
  - left. now left.
  - destruct IH as [H | [l' ->]].
    + left. now right.
    + right. now exists (a :: l').
Qed.

Section Outcomes.

Variable Date_parse : string -> Date.

(** Either merge returns on record objects and throws a [TypeError] as
    soon as an element is [null]. *)
Lemma mergeWorkouts_outcome (l r : list (nullable Workout.t)) :
  (exists l' r', l = map Obj l' /\ r = map Obj r'
     /\ mergeWorkouts Date_parse l r = Ok (merge_workout_records Date_parse l' r'))
  \/ ((In Null l \/ In Null r) /\ mergeWorkouts Date_parse l r = Throw TypeError).
Proof.
  destruct (nullable_split l) as [Hl | [l' ->]].
  - right. split; [now left|]. unfold mergeWorkouts.
    rewrite forEach_null; [reflexivity | reflexivity | discriminate | exact Hl].
  - destruct (nullable_split r) as [Hr | [r' ->]].
    + right. split; [now right|]. unfold mergeWorkouts.
      rewrite (forEach_objs _ (put_local Workout.id)) by reflexivity. simpl.
      rewrite forEach_null; [reflexivity | reflexivity | | exact Hr].
      intros m a e. simpl.
      destruct (JsMap.get m (Workout.id a)); [destruct (Date_gt _ _)|]; discriminate.
    + left. exists l', r'. auto using mergeWorkouts_objs.
Qed.

Lemma mergeBodyAnalyses_outcome (l r : list (nullable BodyAnalysis.t)) :
  (exists l' r', l = map Obj l' /\ r = map Obj r'
     /\ mergeBodyAnalyses Date_parse l r
        = Ok (merge_analysis_records Date_parse l' r'))
  \/ ((In Null l \/ In Null r) /\ mergeBodyAnalyses Date_parse l r = Throw TypeError).
Proof.
  destruct (nullable_split l) as [Hl | [l' ->]].
  - right. split; [now left|]. unfold mergeBodyAnalyses.
    rewrite forEach_null; [reflexivity | reflexivity | discriminate | exact Hl].
  - destruct (nullable_split r) as [Hr | [r' ->]].
    + right. split; [now right|]. unfold mergeBodyAnalyses.
      rewrite (forEach_objs _ (put_local BodyAnalysis.id)) by reflexivity. simpl.
      rewrite forEach_null; [reflexivity | reflexivity | | exact Hr].
      intros m a e. simpl.
      destruct (JsMap.get m (BodyAnalysis.id a)); [destruct (Date_gt _ _)|];
        discriminate.
    + left. exists l', r'. auto using mergeBodyAnalyses_objs.
Qed.

End Outcomes.

(** ** Conflict resolution *)

(** C1.  For lists without repeated ids, when a local workout [a] and a
    remote workout [b] share an id, exactly one record with that id is in
    the result of [mergeWorkouts]: [b] when its stamp is strictly later
    than that of [a], and [a] otherwise, so the local copy on a tie.  The
    stamp is the date of [updatedAt], or of [date] when [updatedAt] is
    absent.  [mergeBodyAnalyses] resolves in the same way on the date of
    [timestamp]. *)
Theorem conflict_keeps_later_local_on_tie (Date_parse : string -> Date) :
  (forall (l r : list Workout.t) (a b : Workout.t),
      NoDup (map Workout.id l) -> NoDup (map Workout.id r) ->
      In a l -> In b r -> Workout.id a = Workout.id b ->
      exists merged kept,
        mergeWorkouts Date_parse (map Obj l) (map Obj r) = Ok merged
        /\ sole_survivor Workout.id merged kept
        /\ kept = (if Date_gt (workoutStamp Date_parse b) (workoutStamp Date_parse a)
                   then b else a)
        /\ later_wins_local_on_tie (workoutStamp Date_parse) a b kept)
  /\ (forall w : Workout.t,
         (truthy (Workout.updatedAt w) = true ->
          workoutStamp Date_parse w = new_Date Date_parse (Workout.updatedAt w))
         /\ (Workout.updatedAt w = VUndefined ->
             workoutStamp Date_parse w = new_Date Date_parse (Workout.date w)))
  /\ (forall (l r : list BodyAnalysis.t) (a b : BodyAnalysis.t),
         NoDup (map BodyAnalysis.id l) -> NoDup (map BodyAnalysis.id r) ->
         In a l -> In b r -> BodyAnalysis.id a = BodyAnalysis.id b ->
         exists merged kept,
           mergeBodyAnalyses Date_parse (map Obj l) (map Obj r) = Ok merged
           /\ sole_survivor BodyAnalysis.id merged kept
           /\ kept = (if Date_gt (new_Date Date_parse (BodyAnalysis.timestamp b))
                                 (new_Date Date_parse (BodyAnalysis.timestamp a))
                      then b else a)
           /\ later_wins_local_on_tie
                (fun x => new_Date Date_parse (BodyAnalysis.timestamp x)) a b kept).
Proof.
  split; [|split].
  - intros l r a b Nl Nr Ia Ib E.
    exists (merge_workout_records Date_parse l r),
           (resolve (workoutStamp Date_parse) (Some a) b).
    split; [apply mergeWorkouts_objs|].
    split; [now apply merge_records_conflict|].
    split; [reflexivity | apply resolve_later].
  - intros w. unfold workoutStamp, js_or. split.
    + now intros ->.
    + now intros ->.
  - intros l r a b Nl Nr Ia Ib E.
    exists (merge_analysis_records Date_parse l r),
           (resolve (analysisStamp Date_parse) (Some a) b).
    split; [apply mergeBodyAnalyses_objs|].
    split; [now apply merge_records_conflict|].
    split; [reflexivity | apply (resolve_later (analysisStamp Date_parse))].
Qed.

Lemma conflict_keeps_later_local_on_tie_witness :
  exists merged kept,
    mergeWorkouts Iso.parse (map Obj [Sample.workout_b; Sample.local_a])
                            (map Obj [Sample.remote_a]) = Ok merged
    /\ sole_survivor Workout.id merged kept
    /\ kept = (if Date_gt (workoutStamp Iso.parse Sample.remote_a)
                          (workoutStamp Iso.parse Sample.local_a)
               then Sample.remote_a else Sample.local_a)
    /\ later_wins_local_on_tie (workoutStamp Iso.parse)
         Sample.local_a Sample.remote_a kept.
Proof.
  apply (proj1 (conflict_keeps_later_local_on_tie Iso.parse)).
  - repeat constructor; simpl; intuition discriminate.
  - repeat constructor; simpl; intuition discriminate.
  - simpl. right. left. reflexivity.
  - simpl. left. reflexivity.
  - reflexivity.
Defined.

(** ** No loss of records held on one side only *)

(** C3.  For workout lists without repeated ids, the ids of the result of
    [mergeWorkouts] are those of the local list together with those of
    the remote list, and every record whose id is on one side only is in
    the result. *)
Theorem merge_ids_union (Date_parse : string -> Date) (l r : list Workout.t) :
  NoDup (map Workout.id l) -> NoDup (map Workout.id r) ->
  exists merged,
    mergeWorkouts Date_parse (map Obj l) (map Obj r) = Ok merged
    /\ (forall k, In k (map Workout.id merged)
                  <-> In k (map Workout.id l) \/ In k (map Workout.id r))
    /\ (forall w, In w l -> ~ In (Workout.id w) (map Workout.id r) -> In w merged)
    /\ (forall w, In w r -> ~ In (Workout.id w) (map Workout.id l) -> In w merged).
Proof.
  intros Nl Nr. exists (merge_workout_records Date_parse l r).
  split; [apply mergeWorkouts_objs|].
  split; [intros k; apply merge_records_ids|].
  split; intros w Hw Hn.
  - now apply merge_records_local_only.
  - now apply merge_records_remote_only.
Qed.

Lemma merge_ids_union_witness :
  exists merged,
    mergeWorkouts Iso.parse (map Obj [Sample.local_a]) (map Obj [Sample.workout_b])
    = Ok merged
    /\ (forall k, In k (map Workout.id merged)
                  <-> In k (map Workout.id [Sample.local_a])
                      \/ In k (map Workout.id [Sample.workout_b]))
    /\ (forall w, In w [Sample.local_a] ->
                  ~ In (Workout.id w) (map Workout.id [Sample.workout_b]) ->
                  In w merged)
    /\ (forall w, In w [Sample.workout_b] ->
                  ~ In (Workout.id w) (map Workout.id [Sample.local_a]) ->
                  In w merged).
Proof.
  apply (merge_ids_union Iso.parse [Sample.local_a] [Sample.workout_b]).
  - repeat constructor; simpl; tauto.
  - repeat constructor; simpl; tauto.
Defined.

(** ** Merging a list with itself *)

(** C4.  For a workout list [X] without repeated ids, the result of
    [mergeWorkouts] on [X] and [X] holds exactly the records of [X]: it
    is [X] in another order. *)
Theorem merge_idempotent (Date_parse : string -> Date) (X : list Workout.t) :
  NoDup (map Workout.id X) ->
  exists merged,
    mergeWorkouts Date_parse (map Obj X) (map Obj X) = Ok merged
    /\ Permutation merged X.
Proof.
  intros N. exists (merge_workout_records Date_parse X X).
  split; [apply mergeWorkouts_objs | now apply merge_records_same].
Qed.

Lemma merge_idempotent_witness :
  exists merged,
    mergeWorkouts Iso.parse (map Obj [Sample.local_a; Sample.workout_b])
                            (map Obj [Sample.local_a; Sample.workout_b]) = Ok merged
    /\ Permutation merged [Sample.local_a; Sample.workout_b].
Proof.
  apply (merge_idempotent Iso.parse [Sample.local_a; Sample.workout_b]).
  repeat constructor; simpl; intuition discriminate.
Defined.

(** ** Order of the result *)

(** C7.  When every record carries a valid date in the field the sort
    reads, the result of [mergeWorkouts] is ordered newest first by
    [date], and the result of [mergeBodyAnalyses] newest first by
    [timestamp]. *)
Theorem merged_newest_first (Date_parse : string -> Date) :
  (forall l r : list Workout.t,
      Forall (dated (workoutDate Date_parse)) l ->
      Forall (dated (workoutDate Date_parse)) r ->
      exists merged,
        mergeWorkouts Date_parse (map Obj l) (map Obj r) = Ok merged
        /\ StronglySorted (newer_or_same (workoutDate Date_parse)) merged)
  /\ (forall l r : list BodyAnalysis.t,
         Forall (dated (analysisStamp Date_parse)) l ->
         Forall (dated (analysisStamp Date_parse)) r ->
         exists merged,
           mergeBodyAnalyses Date_parse (map Obj l) (map Obj r) = Ok merged
           /\ StronglySorted (newer_or_same (analysisStamp Date_parse)) merged).
Proof.
  split; intros l r Dl Dr.
  - exists (merge_workout_records Date_parse l r).
    split; [apply mergeWorkouts_objs | now apply merge_records_sorted].
  - exists (merge_analysis_records Date_parse l r).
    split; [apply mergeBodyAnalyses_objs | now apply merge_records_sorted].
Qed.

Lemma merged_newest_first_witness :
  (exists merged,
      mergeWorkouts Iso.parse (map Obj [Sample.local_a])
        (map Obj [Sample.workout_b; Sample.remote_a]) = Ok merged
      /\ StronglySorted (newer_or_same (workoutDate Iso.parse)) merged)
  /\ (exists merged,
         mergeBodyAnalyses Iso.parse (map Obj [Sample.other_scan; Sample.local_scan])
           (map Obj [Sample.remote_scan]) = Ok merged
         /\ StronglySorted (newer_or_same (analysisStamp Iso.parse)) merged).
Proof.
  split.
  - apply (proj1 (merged_newest_first Iso.parse));
      repeat constructor; discriminate.
  - apply (proj2 (merged_newest_first Iso.parse));
      repeat constructor; discriminate.
Defined.

(** ** One record per id *)

(** C9.  Whatever the two lists of records hold, repeated ids included,
    no id occurs twice in the result of [mergeWorkouts] or of
    [mergeBodyAnalyses]. *)
Theorem merged_ids_unique (Date_parse : string -> Date) :
  (forall l r : list Workout.t,
      exists merged,
        mergeWorkouts Date_parse (map Obj l) (map Obj r) = Ok merged
        /\ NoDup (map Workout.id merged))
  /\ (forall l r : list BodyAnalysis.t,
         exists merged,
           mergeBodyAnalyses Date_parse (map Obj l) (map Obj r) = Ok merged
           /\ NoDup (map BodyAnalysis.id merged)).
Proof.
  split; intros l r.
  - exists (merge_workout_records Date_parse l r).
    split; [apply mergeWorkouts_objs | apply merge_records_NoDup_ids].
  - exists (merge_analysis_records Date_parse l r).
    split; [apply mergeBodyAnalyses_objs | apply merge_records_NoDup_ids].
Qed.

Example repeated_ids_collapse :
  mergeWorkouts Iso.parse
    [Obj Sample.local_a; Obj Sample.remote_a; Obj Sample.local_a]
    [Obj Sample.remote_a; Obj Sample.workout_b; Obj Sample.workout_b]
  = Ok [Sample.workout_b; Sample.remote_a].
Proof. reflexivity. Qed.

(** ** Records that lack a field *)

(** C8, as stated, fails.  Two records without an [id] meet under the
    key [undefined]: the remote one is compared with the local one and
    dropped, it is not inserted as a new record. *)
Lemma anonymous_record_dropped :
  Workout.id Sample.anonymous_old = VUndefined
  /\ mergeWorkouts Iso.parse [Obj Sample.anonymous_new] [Obj Sample.anonymous_old]
     = Ok [Sample.anonymous_new]
  /\ ~ In Sample.anonymous_old [Sample.anonymous_new]
  /\ BodyAnalysis.id Sample.anonymous_scan_old = VUndefined
  /\ mergeBodyAnalyses Iso.parse [Obj Sample.anonymous_scan_new]
       [Obj Sample.anonymous_scan_old]
     = Ok [Sample.anonymous_scan_new]
  /\ ~ In Sample.anonymous_scan_old [Sample.anonymous_scan_new].
Proof.
  repeat split; try reflexivity; simpl; intros [H | []]; discriminate H.
Qed.

(** C8, amended.  On lists of record objects, with or without [id],
    [date], [updatedAt] and [timestamp], neither merge throws; a missing
    [id] is the key [undefined], and every record that shares its key
    with no other record of the two lists is in the result. *)
Theorem records_lacking_fields_tolerated (Date_parse : string -> Date) :
  (forall l r : list Workout.t,
      exists merged,
        mergeWorkouts Date_parse (map Obj l) (map Obj r) = Ok merged
        /\ forall w, In w (l ++ r) -> alone_in Workout.id w (l ++ r) -> In w merged)
  /\ (forall l r : list BodyAnalysis.t,
         exists merged,
           mergeBodyAnalyses Date_parse (map Obj l) (map Obj r) = Ok merged
           /\ forall w, In w (l ++ r) -> alone_in BodyAnalysis.id w (l ++ r) ->
                        In w merged).
Proof.
  split; intros l r.
  - exists (merge_workout_records Date_parse l r).
    split; [apply mergeWorkouts_objs|].
    intros w Hin Hal. now apply merge_records_alone.
  - exists (merge_analysis_records Date_parse l r).
    split; [apply mergeBodyAnalyses_objs|].
    intros w Hin Hal. now apply merge_records_alone.
Qed.

Lemma records_lacking_fields_tolerated_witness :
  exists merged,
    mergeWorkouts Iso.parse
      (map Obj [Sample.workout VUndefined VUndefined VUndefined])
      (map Obj [Sample.workout_b]) = Ok merged
    /\ In (Sample.workout VUndefined VUndefined VUndefined) merged.
Proof.
  destruct (proj1 (records_lacking_fields_tolerated Iso.parse)
              [Sample.workout VUndefined VUndefined VUndefined] [Sample.workout_b])
    as (merged & E & H).
  exists merged. split; [exact E|]. apply H.
  - simpl. left. reflexivity.
  - intros a Ha Hk. simpl in Ha. destruct Ha as [<- | [<- | []]].
    + reflexivity.
    + discriminate Hk.
Defined.

(** ** Recent exercises *)

Lemma filter_filter {T : Type} (f g : T -> bool) (l : list T) :
  filter f (filter g l) = filter (fun y => g y && f y) l.
Proof.
  induction l as [|y l IH]; simpl; [reflexivity|].
  destruct (g y); simpl; [destruct (f y)|]; now rewrite IH.
Qed.

Lemma filter_true {T : Type} (l : list T) : filter (fun _ => true) l = l.
Proof. induction l as [|y l IH]; simpl; [reflexivity | now rewrite IH]. Qed.

Lemma has_app (s t : JsSet.t) (x : string) :
  JsSet.has (s ++ t) x = JsSet.has s x || JsSet.has t x.
Proof. apply existsb_app. Qed.

(** The set built by adding the elements of [l] in turn to [s]. *)
Lemma fold_add (l : list string) (s : JsSet.t) :
  fold_left JsSet.add l s
  = s ++ filter (fun y => negb (JsSet.has s y)) (dedupe_first l).
Proof.
  revert s. induction l as [|x l IH]; intros s; simpl.
  - now rewrite app_nil_r.
  - rewrite IH. unfold JsSet.add. destruct (JsSet.has s x) eqn:H; simpl.
    + f_equal. rewrite filter_filter. apply filter_ext. intros y.
      destruct (String.eqb_spec x y) as [<- | N]; simpl; [now rewrite H | reflexivity].
    + rewrite <- app_assoc. simpl. do 2 f_equal.
      rewrite filter_filter. apply filter_ext. intros y.
      rewrite has_app. simpl. rewrite orb_false_r, negb_orb, (String.eqb_sym y x).
      apply andb_comm.
Qed.

Lemma dedupe_first_NoDup (l : list string) : NoDup (dedupe_first l).
Proof.
  induction l as [|x l IH]; simpl; constructor.
  - intros H. apply filter_In in H. destruct H as [_ H].
    now rewrite String.eqb_refl in H.
  - now apply NoDup_filter.
Qed.

Lemma dedupe_first_In (l : list string) (x : string) :
  In x (dedupe_first l) <-> In x l.
Proof.
  induction l as [|y l IH]; simpl; [tauto|].
  rewrite filter_In, IH.
  destruct (String.eqb_spec y x) as [-> | N]; simpl; [tauto|].
  split; [tauto | intros [H | H]; [congruence | tauto]].
Qed.

Lemma firstn_NoDup {T : Type} (n : nat) (l : list T) : NoDup l -> NoDup (firstn n l).
Proof.
  intros H. rewrite <- (firstn_skipn n l) in H. now apply NoDup_app_remove_r in H.
Qed.

(** C6.  [mergeRecentExercises] returns the concatenation of the local
    and the remote list with every element kept at its first occurrence
    only, cut to its first ten entries; the result has at most ten
    entries and no duplicates, and on [x, y] and [y, z] it is
    [x, y, z]. *)
Theorem mergeRecentExercises_spec (localRecent remoteRecent : list string) :
  mergeRecentExercises localRecent remoteRecent = recent_spec localRecent remoteRecent
  /\ (List.length (mergeRecentExercises localRecent remoteRecent) <= 10)%nat
  /\ NoDup (mergeRecentExercises localRecent remoteRecent)
  /\ mergeRecentExercises ["x"; "y"] ["y"; "z"] = ["x"; "y"; "z"].
Proof.
  assert (E : mergeRecentExercises localRecent remoteRecent
              = recent_spec localRecent remoteRecent).
  { unfold mergeRecentExercises, recent_spec.
    change (fun exerciseSet exercise => JsSet.add exerciseSet exercise) with JsSet.add.
    rewrite fold_add. apply (f_equal (firstn 10)).
    exact (filter_true (dedupe_first (localRecent ++ remoteRecent))). }
  split; [exact E|]. rewrite E. unfold recent_spec.
  split; [apply firstn_le_length|].
  split; [apply firstn_NoDup, dedupe_first_NoDup | reflexivity].
Qed.

Example recent_capped :
  mergeRecentExercises
    ["a"; "b"; "c"; "d"; "e"; "f"; "g"] ["b"; "h"; "i"; "j"; "k"; "a"; "l"]
  = ["a"; "b"; "c"; "d"; "e"; "f"; "g"; "h"; "i"; "j"].
Proof. reflexivity. Qed.

(** ** [mergeData] *)

(** C5.  [mergeData] returns the local dataset as it is when the remote
    one is [null], and the remote dataset as it is when the local one is
    [null]. *)
Theorem mergeData_one_side_absent (Date_parse : string -> Date) :
  (forall localData, mergeData Date_parse localData None = Ok localData)
  /\ (forall remoteData, mergeData Date_parse None remoteData = Ok remoteData).
Proof.
  split; [reflexivity|]. intros [remote|]; reflexivity.
Qed.

(** C10.  With both datasets present, [mergeData] returns an object of
    the three collections and nothing else: each is the merge of the two
    inputs' collections, an absent one counting as empty, and the other
    fields of the inputs are gone, whereas with one side absent the other
    is returned as it is.  It throws only on a [null] record. *)
Theorem mergeData_both_present (Date_parse : string -> Date) (local remote : SyncData) :
  mergeData Date_parse (Some local) None = Ok (Some local)
  /\ mergeData Date_parse None (Some remote) = Ok (Some remote)
  /\
  match mergeData Date_parse (Some local) (Some remote) with
  | Ok (Some merged) =>
      others merged = []
      /\ (exists ws,
             mergeWorkouts Date_parse (or_empty (workouts local))
               (or_empty (workouts remote)) = Ok ws
             /\ workouts merged = Some (map Obj ws))
      /\ recentExercises merged
         = Some (mergeRecentExercises (or_empty (recentExercises local))
                   (or_empty (recentExercises remote)))
      /\ (exists bs,
             mergeBodyAnalyses Date_parse (or_empty (bodyAnalyses local))
               (or_empty (bodyAnalyses remote)) = Ok bs
             /\ bodyAnalyses merged = Some (map Obj bs))
  | Ok None => False
  | Throw e =>
      e = TypeError
      /\ (In Null (or_empty (workouts local)) \/ In Null (or_empty (workouts remote))
          \/ In Null (or_empty (bodyAnalyses local))
          \/ In Null (or_empty (bodyAnalyses remote)))
  end.
Proof.
  split; [reflexivity|]. split; [reflexivity|].
  unfold mergeData.
  destruct (mergeWorkouts_outcome Date_parse
              (or_empty (workouts local)) (or_empty (workouts remote)))
    as [(l' & r' & _ & _ & ->) | (H & ->)]; simpl; [|tauto].
  destruct (mergeBodyAnalyses_outcome Date_parse
              (or_empty (bodyAnalyses local)) (or_empty (bodyAnalyses remote)))
    as [(la & ra & _ & _ & ->) | (H & ->)]; simpl; [|tauto].
  split; [reflexivity|].
  split; [eexists; split; reflexivity|].
  split; [reflexivity|].
  eexists; split; reflexivity.
Qed.

(** ** The sync entry points *)

(** Case analysis along a transfer: on the answer of each [fetch] in
    turn, then on the tests made of it. *)
Ltac io_step :=
  match goal with
  | |- context [let (_, _) := ?f ?rq ?w in _] =>
      destruct (f rq w) as [[?r|] ?w'] eqn:?
  | |- context [match json ?r with _ => _ end] =>
      destruct (json r) as [?d|] eqn:?
  | |- context [if ?b then _ else _] => destruct b eqn:?
  end; cbn [fst snd sent world].

Ltac io_sent :=
  first [ exists []; split; [now rewrite app_nil_r|]
        | eexists; split; [rewrite <- ?app_assoc; reflexivity|] ].

Ltac io_unfold :=
  cbv zeta;
  unfold syncData, loadData, createFolder, uploadFile, downloadFile, with_token,
    and_await, await_fetch, await_json, ret, throw.

(** C2, as stated, fails.  On a disk that holds another dataset at the
    sync path, [syncData] succeeds without a single download, and the
    file it leaves there is the local dataset as given, which is not what
    [mergeData] makes of the two. *)
Lemma syncData_uploads_unmerged_snapshot :
  let start := {| world := Sample.disk; sent := [] |} in
  let run :=
    syncData Disk.fetch Sample.signed_in (Some Sample.local_data)
      Sample.remote_path start in
  Disk.read Sample.disk Sample.remote_path = Some (Some Sample.remote_data)
  /\ fst run = Ok {| success := true; exists_ := None |}
  /\ sent (snd run)
     = [PutResource "y0_token" "/MyFitness";
        GetUploadLink "y0_token" Sample.remote_path;
        PutFile Sample.remote_path (JSON_stringify (Some Sample.local_data))]
  /\ existsb is_download (sent (snd run)) = false
  /\ Disk.read (world (snd run)) Sample.remote_path = Some (Some Sample.local_data)
  /\ mergeData Iso.parse (Some Sample.local_data) (Some Sample.remote_data)
     <> Ok (Some Sample.local_data).
Proof.
  cbv zeta. repeat split; try reflexivity.
  intros H. vm_compute in H. discriminate H.
Qed.

Example loadData_returns_remote_blob :
  let start := {| world := Sample.disk; sent := [] |} in
  let run := loadData Disk.fetch Sample.signed_in Sample.remote_path start in
  fst run = Ok (Some Sample.remote_data)
  /\ sent (snd run)
     = [GetDownloadLink "y0_token" Sample.remote_path; GetFile Sample.remote_path]
  /\ world (snd run) = Sample.disk.
Proof. cbv zeta. repeat split; reflexivity. Qed.

(** C2, amended.  [syncData] sends folder-creation and upload requests
    only, never a download, and every file it uploads is the dataset it
    was given, as given; when it returns, it has sent exactly the folder
    creation for the directory of the remote path, the request for an
    upload link and the upload of that dataset.  [loadData], the method
    that fetches the remote blob, sends download requests only.  Neither
    calls the reconciler, and neither writes to local storage. *)
Theorem syncData_uploads_given_dataset {World : Type}
  (fetch : request -> World -> option response * World)
  (this : YandexAPI) (localData : option SyncData) (remotePath : string)
  (s : session World) :
  (let run := syncData fetch this localData remotePath s in
   exists issued,
     sent (snd run) = sent s ++ issued
     /\ Forall (fun rq => is_download rq = false) issued
     /\ (forall link data,
            In (PutFile link data) issued -> data = JSON_stringify localData)
     /\ (forall o, fst run = Ok o ->
           o = {| success := true; exists_ := None |}
           /\ exists t link,
                token this = Some t
                /\ issued
                   = [PutResource t
                        (substring_to remotePath (lastIndexOf remotePath "/"));
                      GetUploadLink t remotePath;
                      PutFile link (JSON_stringify localData)]))
  /\ (let run := loadData fetch this remotePath s in
      exists issued,
        sent (snd run) = sent s ++ issued
        /\ Forall (fun rq => is_download rq = true) issued).
Proof.
  split.
  - io_unfold.
    destruct (token this) as [t|]; [destruct (String.eqb t EmptyString)|];
      cbn [fst snd sent world]; repeat io_step.
    all: io_sent.
    all: (split; [repeat constructor|]).
    all: (split; [intros link data H; simpl in H; intuition congruence|]).
    all: try (intros o H; discriminate H).
    all: intros o [= <-]; split; [reflexivity|].
    all: do 2 eexists; split; reflexivity.
  - io_unfold.
    destruct (token this) as [t|]; [destruct (String.eqb t EmptyString)|];
      cbn [fst snd sent world]; repeat io_step.
    all: try destruct (content _).
    all: cbn [fst snd sent world].
    all: io_sent.
    all: repeat constructor.
Qed.

Lemma syncData_uploads_given_dataset_witness :
  let start := {| world := Sample.disk; sent := [] |} in
  let run :=
    syncData Disk.fetch Sample.signed_in (Some Sample.local_data)
      Sample.remote_path start in
  exists issued,
    sent (snd run) = sent start ++ issued
    /\ Forall (fun rq => is_download rq = false) issued
    /\ (forall link data,
           In (PutFile link data) issued
           -> data = JSON_stringify (Some Sample.local_data))
    /\ (forall o, fst run = Ok o ->
          o = {| success := true; exists_ := None |}
          /\ exists t link,
               token Sample.signed_in = Some t
               /\ issued
                  = [PutResource t
                       (substring_to Sample.remote_path
                          (lastIndexOf Sample.remote_path "/"));
                     GetUploadLink t Sample.remote_path;
                     PutFile link (JSON_stringify (Some Sample.local_data))]).
Proof.
  exact (proj1 (syncData_uploads_given_dataset Disk.fetch Sample.signed_in
                  (Some Sample.local_data) Sample.remote_path
                  {| world := Sample.disk; sent := [] |})).
Defined.

(** * Further properties *)

(** ** The merged map, key by key *)

Section SurvivorFacts.

Context {A : Type}.
Variable key : A -> value.
Variable stamp : A -> Date.

Implicit Types (m : JsMap.t A) (a b x : A) (l r : list A) (k : value).

Lemma put_local_step m a k :
  JsMap.get (put_local key m a) k = local_step key k (JsMap.get m k) a.
Proof.
  unfold put_local, local_step, carries. key_cases (key a) k.
  - apply JsMapFacts.get_set_same.
  - apply JsMapFacts.get_set_other. congruence.
Qed.

Lemma put_remote_step m b k :
  JsMap.get (put_remote key stamp m b) k = remote_step key stamp k (JsMap.get m k) b.
Proof.
  unfold remote_step, carries. key_cases (key b) k.
  - apply put_remote_get_same.
  - apply put_remote_get_other. congruence.
Qed.

Lemma local_pass_steps l m k :
  JsMap.get (fold_left (put_local key) l m) k
  = fold_left (local_step key k) l (JsMap.get m k).
Proof.
  revert m. induction l as [|a l IH]; intros m; simpl; [reflexivity|].
  now rewrite IH, put_local_step.
Qed.

Lemma remote_pass_steps r m k :
  JsMap.get (fold_left (put_remote key stamp) r m) k
  = fold_left (remote_step key stamp k) r (JsMap.get m k).
Proof.
  revert m. induction r as [|b r IH]; intros m; simpl; [reflexivity|].
  now rewrite IH, put_remote_step.
Qed.

Lemma merged_map_survivor l r k :
  JsMap.get (merged_map key stamp l r) k = survivor key stamp k l r.
Proof.
  unfold merged_map, survivor. now rewrite remote_pass_steps, local_pass_steps.
Qed.

(** Records under other keys do not take part. *)

Lemma local_steps_filter l k acc :
  fold_left (local_step key k) (filter (carries key k) l) acc
  = fold_left (local_step key k) l acc.
Proof.
  revert acc. induction l as [|a l IH]; intros acc; simpl; [reflexivity|].
  destruct (carries key k a) eqn:E; simpl; rewrite IH; [reflexivity|].
  unfold local_step. now rewrite E.
Qed.

Lemma remote_steps_filter r k acc :
  fold_left (remote_step key stamp k) (filter (carries key k) r) acc
  = fold_left (remote_step key stamp k) r acc.
Proof.
  revert acc. induction r as [|b r IH]; intros acc; simpl; [reflexivity|].
  destruct (carries key k b) eqn:E; simpl; rewrite IH; [reflexivity|].
  unfold remote_step. now rewrite E.
Qed.

Lemma survivor_filter l r k :
  survivor key stamp k (filter (carries key k) l) (filter (carries key k) r)
  = survivor key stamp k l r.
Proof.
  unfold survivor. now rewrite remote_steps_filter, local_steps_filter.
Qed.

Lemma local_steps_last l a l' k acc :
  key a = k -> (forall x, In x l' -> key x <> k) ->
  fold_left (local_step key k) (l ++ a :: l') acc = Some a.
Proof.
  intros Ea Hl'. rewrite fold_left_app. simpl.
  unfold local_step at 2, carries. rewrite Ea, value_eqb_refl.
  clear l acc. induction l' as [|x l' IH]; simpl; [reflexivity|].
  unfold local_step at 2, carries.
  assert (N : value_eqb (key x) k = false).
  { apply value_eqb_neq. apply Hl'. now left. }
  rewrite N. apply IH. intros y Hy. apply Hl'. now right.
Qed.

Lemma remote_steps_none r k acc :
  (forall x, In x r -> key x <> k) ->
  fold_left (remote_step key stamp k) r acc = acc.
Proof.
  revert acc. induction r as [|b r IH]; intros acc Hr; simpl; [reflexivity|].
  unfold remote_step at 2, carries.
  assert (N : value_eqb (key b) k = false).
  { apply value_eqb_neq. apply Hr. now left. }
  rewrite N. apply IH. intros y Hy. apply Hr. now right.
Qed.

End SurvivorFacts.

(** ** More on [merge_records] *)

Lemma withstands_replaced {A : Type} (stamp : A -> Date) (x c b : A) :
  Date_gt (stamp c) (stamp x) = true -> withstands stamp x b -> withstands stamp c b.
Proof.
  unfold withstands, Date_gt.
  destruct (stamp c), (stamp x), (stamp b); try discriminate; try reflexivity.
  intros H1 H2. apply Z.ltb_lt in H1. apply Z.ltb_ge in H2. apply Z.ltb_ge. lia.
Qed.

Lemma sorted_stays {A : Type} (order : A -> Date) (l : list A) :
  StronglySorted (newer_or_same order) l -> Array_sort (newest_first order) l = l.
Proof.
  induction 1 as [|x l Hl IH Hx]; simpl; [reflexivity|].
  rewrite IH. destruct l as [|y l]; simpl; [reflexivity|].
  inversion Hx as [|? ? Hxy _]; subst.
  unfold newest_first, newer_or_same, Date_sub in *.
  destruct (order x), (order y); try tauto. simpl.
  destruct (Z.ltb_spec 0 (z0 - z)); [lia | reflexivity].
Qed.

Section MergeMore.

Context {A : Type}.
Variable key : A -> value.
Variable stamp : A -> Date.
Variable order : A -> Date.

Implicit Types (m : JsMap.t A) (a b x : A) (l r : list A) (k : value).

Lemma merge_records_from_inputs l r x :
  In x (merge_records key stamp order l r) -> In x l \/ In x r.
Proof.
  unfold merge_records. rewrite Array_sort_In. revert x. apply Forall_forall.
  apply merged_map_Forall; apply Forall_forall; auto.
Qed.

Lemma merge_records_survivor l r x :
  In x (merge_records key stamp order l r)
  <-> survivor key stamp (key x) l r = Some x.
Proof. now rewrite merge_records_In, merged_map_survivor. Qed.

Lemma merge_records_last_local l1 a l2 r :
  (forall x, In x l2 -> key x <> key a) ->
  (forall x, In x r -> key x <> key a) ->
  In a (merge_records key stamp order (l1 ++ a :: l2) r).
Proof.
  intros H2 Hr. apply merge_records_survivor. unfold survivor.
  rewrite (local_steps_last key l1 a l2 (key a) None eq_refl H2).
  now apply remote_steps_none.
Qed.

Lemma merge_records_by_id l r x :
  In x (merge_records key stamp order l r)
  <-> In x (merge_records key stamp order
              (filter (carries key (key x)) l) (filter (carries key (key x)) r)).
Proof. now rewrite !merge_records_survivor, survivor_filter. Qed.

Lemma merge_records_pair a b :
  key a = key b -> withstands stamp a b ->
  merge_records key stamp order [a] [b] = [a].
Proof.
  intros E W. unfold merge_records, merged_map. simpl.
  unfold put_local at 1. simpl. unfold put_remote. simpl.
  rewrite E, value_eqb_refl. unfold withstands in W. now rewrite W.
Qed.

(** Exchanging the two sides. *)

Lemma resolve_swap a b :
  a = b \/ (exists ta tb, stamp a = Some ta /\ stamp b = Some tb /\ ta <> tb) ->
  resolve stamp (Some a) b = resolve stamp (Some b) a.
Proof.
  unfold resolve. intros [-> | (ta & tb & -> & -> & N)]; [reflexivity|]. simpl.
  destruct (Z.ltb_spec ta tb), (Z.ltb_spec tb ta); try reflexivity; lia.
Qed.

Lemma merge_records_swap_In l r x :
  NoDup (map key l) -> NoDup (map key r) -> no_tie key stamp l r ->
  In x (merge_records key stamp order l r) ->
  In x (merge_records key stamp order r l).
Proof.
  intros Nl Nr T. rewrite !merge_records_In, !merged_map_get by assumption.
  destruct (lookup key (key x) l) as [a|] eqn:La;
    destruct (lookup key (key x) r) as [b|] eqn:Lb; try (simpl; tauto).
  apply lookup_Some in La. apply lookup_Some in Lb.
  destruct La as [Ia Ea], Lb as [Ib Eb].
  rewrite (resolve_swap a b); [tauto|]. apply T; congruence.
Qed.

End MergeMore.

(** ** Merging the result again *)

Section ResyncPasses.

Context {A : Type}.
Variable key : A -> value.
Variable stamp : A -> Date.

Implicit Types (m : JsMap.t A) (a b x : A) (l r : list A) (k : value).

(** Once a record that withstands [b] is filed under a key, every later
    record filed there does. *)
Lemma remote_pass_withstands r m k x b :
  JsMap.get m k = Some x -> withstands stamp x b ->
  exists x', JsMap.get (fold_left (put_remote key stamp) r m) k = Some x'
             /\ withstands stamp x' b.
Proof.
  revert m x. induction r as [|c r IH]; intros m x G W; simpl; [eauto|].
  assert (S : exists x1, JsMap.get (put_remote key stamp m c) k = Some x1
                         /\ withstands stamp x1 b).
  { rewrite put_remote_step, G. unfold remote_step.
    destruct (carries key k c); [|eauto]. unfold resolve.
    destruct (Date_gt (stamp c) (stamp x)) eqn:E; [|eauto].
    exists c. split; [reflexivity|]. now apply withstands_replaced with x. }
  destruct S as (x1 & G1 & W1). now apply IH with x1.
Qed.

(** After the second pass every remote record meets, under its key, a
    record it would not replace. *)
Lemma remote_pass_settled r m b :
  In b r ->
  exists x, JsMap.get (fold_left (put_remote key stamp) r m) (key b) = Some x
            /\ withstands stamp x b.
Proof.
  revert m. induction r as [|c r IH]; intros m; simpl; [tauto|].
  intros [-> | H]; [|now apply IH].
  apply remote_pass_withstands with (resolve stamp (JsMap.get m (key b)) b).
  - apply put_remote_get_same.
  - unfold resolve, withstands.
    destruct (JsMap.get m (key b)) as [e|]; [|apply Date_gt_irrefl].
    destruct (Date_gt (stamp b) (stamp e)) eqn:E; [apply Date_gt_irrefl | exact E].
Qed.

Lemma remote_pass_idle r m :
  (forall b, In b r -> exists x, JsMap.get m (key b) = Some x /\ withstands stamp x b) ->
  fold_left (put_remote key stamp) r m = m.
Proof.
  induction r as [|b r IH]; intros H; simpl; [reflexivity|].
  assert (E : put_remote key stamp m b = m).
  { destruct (H b (or_introl eq_refl)) as (x & G & W).
    unfold put_remote. rewrite G. unfold withstands in W. now rewrite W. }
  rewrite E. apply IH. intros c Hc. apply H. now right.
Qed.

Lemma local_pass_fresh l m :
  NoDup (JsMap.keys m ++ map key l) ->
  fold_left (put_local key) l m = m ++ map (filed key) l.
Proof.
  revert m. induction l as [|a l IH]; intros m N; simpl.
  - now rewrite app_nil_r.
  - assert (F : put_local key m a = m ++ [filed key a]).
    { apply JsMapFacts.set_fresh, JsMapFacts.get_None.
      apply NoDup_remove_2 in N. intros H. apply N. apply in_or_app. now left. }
    rewrite F, IH.
    + now rewrite <- app_assoc.
    + unfold JsMap.keys in *. rewrite map_app, <- app_assoc. exact N.
Qed.

Lemma filed_keys l : JsMap.keys (map (filed key) l) = map key l.
Proof. unfold JsMap.keys. rewrite map_map. reflexivity. Qed.

Lemma filed_values l : JsMap.values (map (filed key) l) = l.
Proof. unfold JsMap.values. rewrite map_map. apply map_id. Qed.

Lemma filed_get l x :
  NoDup (map key l) -> In x l -> JsMap.get (map (filed key) l) (key x) = Some x.
Proof.
  intros N H. apply JsMapFacts.In_get.
  - now rewrite filed_keys.
  - apply in_map_iff. now exists x.
Qed.

End ResyncPasses.

Section Resync.

Context {A : Type}.
Variable key : A -> value.
Variable stamp : A -> Date.
Variable order : A -> Date.

Implicit Types (m : JsMap.t A) (a b x : A) (l r : list A) (k : value).

(** Merging the result with the remote list it came from, or with
    itself, files the same records. *)
Lemma merged_again l r r' :
  let merged := merge_records key stamp order l r in
  (forall b, In b r' ->
     exists x, In x merged /\ key x = key b /\ withstands stamp x b) ->
  merged_map key stamp merged r' = map (filed key) merged.
Proof.
  intros merged H. unfold merged_map.
  assert (N : NoDup (map key merged)) by apply merge_records_NoDup_ids.
  rewrite (local_pass_fresh key merged JsMap.empty) by exact N. simpl.
  apply remote_pass_idle. intros b Hb.
  destruct (H b Hb) as (x & Hx & E & W). exists x. split; [|exact W].
  rewrite <- E. now apply filed_get.
Qed.

Lemma merge_records_again_remote l r :
  Forall (dated order) l -> Forall (dated order) r ->
  merge_records key stamp order (merge_records key stamp order l r) r
  = merge_records key stamp order l r.
Proof.
  intros Dl Dr. unfold merge_records at 1.
  rewrite merged_again.
  - rewrite filed_values. apply sorted_stays. now apply merge_records_sorted.
  - intros b Hb. destruct (remote_pass_settled key stamp r (fold_left (put_local key) l JsMap.empty) b Hb)
      as (x & G & W).
    exists x. split; [|split; [|exact W]].
    + apply merge_records_In.
      destruct (merged_map_inv key stamp l r) as (K & _ & _).
      apply JsMapFacts.get_In in G. unfold keyed in K. rewrite Forall_forall in K.
      pose proof (K _ G) as E. simpl in E. rewrite <- E.
      apply JsMapFacts.In_get; [|exact G].
      apply (merged_map_inv key stamp l r).
    + destruct (merged_map_inv key stamp l r) as (K & _ & _).
      apply JsMapFacts.get_In in G. unfold keyed in K. rewrite Forall_forall in K.
      pose proof (K _ G) as E. simpl in E. now symmetry.
Qed.

Lemma merge_records_again_self l r :
  Forall (dated order) l -> Forall (dated order) r ->
  let merged := merge_records key stamp order l r in
  merge_records key stamp order merged merged = merged.
Proof.
  intros Dl Dr merged. unfold merge_records at 1. fold merged.
  unfold merged at 1. rewrite merged_again.
  - rewrite filed_values. apply sorted_stays. now apply merge_records_sorted.
  - intros b Hb. exists b. split; [exact Hb|]. split; [reflexivity|].
    apply Date_gt_irrefl.
Qed.

End Resync.

(** ** More on the recent-exercise merge *)

Lemma has_In (s : JsSet.t) (x : string) : JsSet.has s x = true <-> In x s.
Proof.
  unfold JsSet.has. rewrite existsb_exists. split.
  - intros (y & Hy & E). apply String.eqb_eq in E. now subst.
  - intros H. exists x. split; [exact H | apply String.eqb_refl].
Qed.

Lemma fold_add_nil (l : list string) : fold_left JsSet.add l [] = dedupe_first l.
Proof. rewrite fold_add. exact (filter_true (dedupe_first l)). Qed.

Lemma mergeRecentExercises_eq (l r : list string) :
  mergeRecentExercises l r = firstn 10 (dedupe_first (l ++ r)).
Proof.
  unfold mergeRecentExercises.
  change (fun exerciseSet exercise => JsSet.add exerciseSet exercise) with JsSet.add.
  now rewrite fold_add_nil.
Qed.

Lemma dedupe_first_app (a b : list string) :
  dedupe_first (a ++ b)
  = dedupe_first a
    ++ filter (fun y => negb (JsSet.has (dedupe_first a) y)) (dedupe_first b).
Proof.
  rewrite <- (fold_add_nil (a ++ b)), fold_left_app, fold_add_nil. apply fold_add.
Qed.

Lemma filter_all {T : Type} (f : T -> bool) (l : list T) :
  (forall x, In x l -> f x = true) -> filter f l = l.
Proof.
  induction l as [|y l IH]; simpl; intros H; [reflexivity|].
  rewrite (H y (or_introl eq_refl)), IH; [reflexivity|].
  intros x Hx. apply H. now right.
Qed.

Lemma filter_none {T : Type} (f : T -> bool) (l : list T) :
  (forall x, In x l -> f x = false) -> filter f l = [].
Proof.
  induction l as [|y l IH]; simpl; intros H; [reflexivity|].
  rewrite (H y (or_introl eq_refl)). apply IH.
  intros x Hx. apply H. now right.
Qed.

Lemma dedupe_first_NoDup_id (l : list string) : NoDup l -> dedupe_first l = l.
Proof.
  induction 1 as [|x l Hx Hl IH]; simpl; [reflexivity|].
  rewrite IH. f_equal. apply filter_all. intros y Hy.
  destruct (String.eqb_spec x y) as [-> | N]; [contradiction | reflexivity].
Qed.

Lemma dedupe_first_length (l : list string) :
  (List.length (dedupe_first l) <= List.length l)%nat.
Proof.
  induction l as [|x l IH]; simpl; [lia|].
  pose proof (filter_length_le (fun y => negb (String.eqb x y)) (dedupe_first l)).
  lia.
Qed.

Lemma firstn_incl {T : Type} (n : nat) (l : list T) (x : T) :
  In x (firstn n l) -> In x l.
Proof.
  intros H. rewrite <- (firstn_skipn n l). apply in_or_app. now left.
Qed.

Lemma recent_NoDup (l r : list string) : NoDup (mergeRecentExercises l r).
Proof. rewrite mergeRecentExercises_eq. apply firstn_NoDup, dedupe_first_NoDup. Qed.

Lemma recent_length (l r : list string) :
  (List.length (mergeRecentExercises l r) <= 10)%nat.
Proof. rewrite mergeRecentExercises_eq. apply firstn_le_length. Qed.

(** X1.  Every entry of the result of [mergeRecentExercises] is an entry
    of one of the two lists, and when the two lists together have at most
    ten entries, every entry of either list is in the result. *)
Theorem recent_exercises_members (localRecent remoteRecent : list string) :
  (forall x, In x (mergeRecentExercises localRecent remoteRecent) ->
             In x localRecent \/ In x remoteRecent)
  /\ ((List.length localRecent + List.length remoteRecent <= 10)%nat ->
      forall x, In x localRecent \/ In x remoteRecent ->
                In x (mergeRecentExercises localRecent remoteRecent)).
Proof.
  rewrite mergeRecentExercises_eq. split.
  - intros x H. apply firstn_incl in H.
    apply (proj1 (dedupe_first_In _ _)) in H. now apply in_app_or.
  - intros L x H. rewrite firstn_all2.
    + apply dedupe_first_In. now apply in_or_app.
    + pose proof (dedupe_first_length (localRecent ++ remoteRecent)) as D.
      rewrite length_app in D. lia.
Qed.

Lemma recent_exercises_members_witness :
  (List.length ["Squat"; "Plank"] + List.length ["Plank"; "Row"] <= 10)%nat
  /\ forall x, In x ["Squat"; "Plank"] \/ In x ["Plank"; "Row"] ->
               In x (mergeRecentExercises ["Squat"; "Plank"] ["Plank"; "Row"]).
Proof.
  split; [simpl; lia|].
  apply (proj2 (recent_exercises_members ["Squat"; "Plank"] ["Plank"; "Row"])).
  simpl. lia.
Defined.

Lemma recent_local_form (localRecent remoteRecent : list string) :
  NoDup localRecent ->
  mergeRecentExercises localRecent remoteRecent
  = firstn 10 (localRecent
               ++ filter (fun y => negb (JsSet.has localRecent y))
                    (dedupe_first remoteRecent)).
Proof.
  intros N. rewrite mergeRecentExercises_eq, dedupe_first_app.
  now rewrite (dedupe_first_NoDup_id localRecent N).
Qed.

Lemma recent_again_remote (localRecent remoteRecent : list string) :
  let merged := mergeRecentExercises localRecent remoteRecent in
  mergeRecentExercises merged remoteRecent = merged.
Proof.
  intros merged.
  assert (N : NoDup merged) by apply recent_NoDup.
  assert (L : (List.length merged <= 10)%nat) by apply recent_length.
  assert (F : firstn 10 merged = merged) by now apply firstn_all2.
  rewrite (recent_local_form merged remoteRecent N).
  destruct (Nat.eq_dec (List.length merged) 10) as [Ten | Less].
  - rewrite firstn_app. replace (10 - List.length merged)%nat with 0%nat by lia.
    simpl. now rewrite app_nil_r.
  - assert (All : merged = dedupe_first (localRecent ++ remoteRecent)).
    { unfold merged. rewrite mergeRecentExercises_eq. apply firstn_all2.
      destruct (Nat.le_gt_cases
                  (List.length (dedupe_first (localRecent ++ remoteRecent))) 10)
        as [H | H]; [exact H|].
      exfalso. apply Less. unfold merged.
      rewrite mergeRecentExercises_eq, firstn_length_le; lia. }
    rewrite filter_none, app_nil_r; [exact F|].
    intros x Hx. apply negb_false_iff, has_In. rewrite All.
    apply dedupe_first_In, in_or_app. right.
    now apply (proj1 (dedupe_first_In _ _)).
Qed.

Lemma recent_again_self (localRecent remoteRecent : list string) :
  let merged := mergeRecentExercises localRecent remoteRecent in
  mergeRecentExercises merged merged = merged.
Proof.
  intros merged.
  assert (N : NoDup merged) by apply recent_NoDup.
  assert (L : (List.length merged <= 10)%nat) by apply recent_length.
  rewrite mergeRecentExercises_eq, dedupe_first_app.
  rewrite (dedupe_first_NoDup_id merged N).
  rewrite filter_none, app_nil_r; [now apply firstn_all2|].
  intros x Hx. apply negb_false_iff. now apply has_In.
Qed.

(** X2.  When the local list has no duplicates, its entries come first
    in the result of [mergeRecentExercises], in their order, followed by
    the remote entries that are not local; the cut to ten falls on this
    sequence, so a local list of ten or more entries leaves no room for
    any remote entry. *)
Theorem recent_local_entries_first (localRecent remoteRecent : list string) :
  NoDup localRecent ->
  (exists rest,
      mergeRecentExercises localRecent remoteRecent = firstn 10 (localRecent ++ rest)
      /\ NoDup rest
      /\ forall x, In x rest <-> In x remoteRecent /\ ~ In x localRecent)
  /\ ((10 <= List.length localRecent)%nat ->
      mergeRecentExercises localRecent remoteRecent = firstn 10 localRecent).
Proof.
  intros N. pose proof (recent_local_form localRecent remoteRecent N) as E.
  split.
  - eexists. split; [exact E|]. split.
    + apply NoDup_filter, dedupe_first_NoDup.
    + intros x. rewrite filter_In, dedupe_first_In, negb_true_iff.
      rewrite <- (has_In localRecent x).
      destruct (JsSet.has localRecent x); intuition congruence.
  - intros L. rewrite E, firstn_app.
    replace (10 - List.length localRecent)%nat with 0%nat by lia.
    simpl. apply app_nil_r.
Qed.

Lemma recent_local_entries_first_witness :
  mergeRecentExercises
    ["a"; "b"; "c"; "d"; "e"; "f"; "g"; "h"; "i"; "j"; "k"] ["z"]
  = firstn 10 ["a"; "b"; "c"; "d"; "e"; "f"; "g"; "h"; "i"; "j"; "k"].
Proof.
  apply (recent_local_entries_first
           ["a"; "b"; "c"; "d"; "e"; "f"; "g"; "h"; "i"; "j"; "k"] ["z"]).
  - repeat constructor; simpl; intuition discriminate.
  - simpl. lia.
Defined.

(** X3.  Merging the result of [mergeRecentExercises] once more, with
    the same remote list or with itself, returns it unchanged. *)
Theorem recent_merge_again (localRecent remoteRecent : list string) :
  let merged := mergeRecentExercises localRecent remoteRecent in
  mergeRecentExercises merged remoteRecent = merged
  /\ mergeRecentExercises merged merged = merged.
Proof.
  split; [apply recent_again_remote | apply recent_again_self].
Qed.

(** X4.  The lists that [mergeRecentExercises] returns unchanged when
    merged with the empty list are exactly those without duplicates and
    with at most ten entries. *)
Theorem recent_fixed_points (recent : list string) :
  mergeRecentExercises recent [] = recent
  <-> NoDup recent /\ (List.length recent <= 10)%nat.
Proof.
  split.
  - intros E. rewrite <- E. split; [apply recent_NoDup | apply recent_length].
  - intros [N L]. rewrite mergeRecentExercises_eq, app_nil_r.
    rewrite (dedupe_first_NoDup_id recent N). now apply firstn_all2.
Qed.

(** ** More on the two record merges *)

Lemma NoDup_map_In_eq {T U : Type} (f : T -> U) (l : list T) (x y : T) :
  NoDup (map f l) -> In x l -> In y l -> f x = f y -> x = y.
Proof.
  induction l as [|z l IH]; simpl; [tauto|].
  intros N Hx Hy E. inversion N as [|? ? Hz N']; subst.
  destruct Hx as [-> | Hx], Hy as [-> | Hy]; auto.
  - exfalso. apply Hz. rewrite E. now apply in_map.
  - exfalso. apply Hz. rewrite <- E. now apply in_map.
Qed.

Lemma sole_survivor_In {T : Type} (key : T -> value) (stamp order : T -> Date)
  (l r : list T) (x : T) :
  In x (merge_records key stamp order l r) ->
  sole_survivor key (merge_records key stamp order l r) x.
Proof.
  intros H. split; [exact H|]. intros y Hy E.
  apply (NoDup_map_In_eq key (merge_records key stamp order l r)); auto.
  apply merge_records_NoDup_ids.
Qed.

(** X5.  Every record in the result of [mergeWorkouts] or of
    [mergeBodyAnalyses] is one of the records passed in, as it was
    passed: the merges select, they never build or alter a record. *)
Theorem merged_records_come_from_inputs (Date_parse : string -> Date) :
  (forall l r : list Workout.t,
      exists merged,
        mergeWorkouts Date_parse (map Obj l) (map Obj r) = Ok merged
        /\ forall w, In w merged -> In w l \/ In w r)
  /\ (forall l r : list BodyAnalysis.t,
         exists merged,
           mergeBodyAnalyses Date_parse (map Obj l) (map Obj r) = Ok merged
           /\ forall a, In a merged -> In a l \/ In a r).
Proof.
  split; intros l r.
  - exists (merge_workout_records Date_parse l r).
    split; [apply mergeWorkouts_objs | apply merge_records_from_inputs].
  - exists (merge_analysis_records Date_parse l r).
    split; [apply mergeBodyAnalyses_objs | apply merge_records_from_inputs].
Qed.

(** X6.  [mergeWorkouts] and [mergeBodyAnalyses] throw exactly when one
    of the two arrays holds a [null], and what they throw then is a
    [TypeError]; on arrays of record objects they return. *)
Theorem merge_throws_exactly_on_null (Date_parse : string -> Date) :
  (forall l r : list (nullable Workout.t),
      (In Null l \/ In Null r <-> mergeWorkouts Date_parse l r = Throw TypeError)
      /\ (~ (In Null l \/ In Null r)
          <-> exists merged, mergeWorkouts Date_parse l r = Ok merged))
  /\ (forall l r : list (nullable BodyAnalysis.t),
         (In Null l \/ In Null r
          <-> mergeBodyAnalyses Date_parse l r = Throw TypeError)
         /\ (~ (In Null l \/ In Null r)
             <-> exists merged, mergeBodyAnalyses Date_parse l r = Ok merged)).
Proof.
  assert (NoNull : forall (T : Type) (l' : list T), ~ In Null (map Obj l')).
  { intros T l' H. apply in_map_iff in H. destruct H as (x & E & _). discriminate E. }
  split; intros l r.
  - destruct (mergeWorkouts_outcome Date_parse l r)
      as [(l' & r' & -> & -> & E) | (H & E)]; rewrite E.
    + split; split.
      * intros [H | H]; now apply NoNull in H.
      * discriminate.
      * eauto.
      * intros _ [H | H]; now apply NoNull in H.
    + split; split.
      * reflexivity.
      * intros _. exact H.
      * intros N. now destruct N.
      * intros [merged Hm]. discriminate Hm.
  - destruct (mergeBodyAnalyses_outcome Date_parse l r)
      as [(l' & r' & -> & -> & E) | (H & E)]; rewrite E.
    + split; split.
      * intros [H | H]; now apply NoNull in H.
      * discriminate.
      * eauto.
      * intros _ [H | H]; now apply NoNull in H.
    + split; split.
      * reflexivity.
      * intros _. exact H.
      * intros N. now destruct N.
      * intros [merged Hm]. discriminate Hm.
Qed.

(** X7.  Among local records of one id the last in the list is the one
    kept, whatever the time stamps: when no later local record and no
    remote record carries its id, it is in the result and is the only
    record of that id there. *)
Theorem last_local_duplicate_wins (Date_parse : string -> Date) :
  (forall (l1 l2 r : list Workout.t) (a : Workout.t),
      (forall x, In x l2 -> Workout.id x <> Workout.id a) ->
      (forall x, In x r -> Workout.id x <> Workout.id a) ->
      exists merged,
        mergeWorkouts Date_parse (map Obj (l1 ++ a :: l2)) (map Obj r) = Ok merged
        /\ sole_survivor Workout.id merged a)
  /\ (forall (l1 l2 r : list BodyAnalysis.t) (a : BodyAnalysis.t),
         (forall x, In x l2 -> BodyAnalysis.id x <> BodyAnalysis.id a) ->
         (forall x, In x r -> BodyAnalysis.id x <> BodyAnalysis.id a) ->
         exists merged,
           mergeBodyAnalyses Date_parse (map Obj (l1 ++ a :: l2)) (map Obj r)
           = Ok merged
           /\ sole_survivor BodyAnalysis.id merged a).
Proof.
  split; intros l1 l2 r a H2 Hr.
  - exists (merge_workout_records Date_parse (l1 ++ a :: l2) r).
    split; [apply mergeWorkouts_objs|].
    apply sole_survivor_In. now apply merge_records_last_local.
  - exists (merge_analysis_records Date_parse (l1 ++ a :: l2) r).
    split; [apply mergeBodyAnalyses_objs|].
    apply sole_survivor_In. now apply merge_records_last_local.
Qed.

Lemma last_local_duplicate_wins_witness :
  exists merged,
    mergeWorkouts Iso.parse
      (map Obj ([Sample.remote_a] ++ Sample.local_a :: [Sample.workout_b]))
      (map Obj []) = Ok merged
    /\ sole_survivor Workout.id merged Sample.local_a.
Proof.
  apply (proj1 (last_local_duplicate_wins Iso.parse)
           [Sample.remote_a] [Sample.workout_b] [] Sample.local_a).
  - intros x H. simpl in H. destruct H as [<- | []]. discriminate.
  - intros x H. destruct H.
Defined.

(** X8.  Whether a record is in the result of a merge depends only on
    the records that carry its id: dropping every record of another id
    from both lists leaves it in, or out, as before. *)
Theorem merge_independent_across_ids (Date_parse : string -> Date) :
  (forall (l r : list Workout.t) (w : Workout.t),
      exists merged alone,
        mergeWorkouts Date_parse (map Obj l) (map Obj r) = Ok merged
        /\ mergeWorkouts Date_parse
             (map Obj (filter (carries Workout.id (Workout.id w)) l))
             (map Obj (filter (carries Workout.id (Workout.id w)) r)) = Ok alone
        /\ (In w merged <-> In w alone))
  /\ (forall (l r : list BodyAnalysis.t) (a : BodyAnalysis.t),
         exists merged alone,
           mergeBodyAnalyses Date_parse (map Obj l) (map Obj r) = Ok merged
           /\ mergeBodyAnalyses Date_parse
                (map Obj (filter (carries BodyAnalysis.id (BodyAnalysis.id a)) l))
                (map Obj (filter (carries BodyAnalysis.id (BodyAnalysis.id a)) r))
              = Ok alone
           /\ (In a merged <-> In a alone)).
Proof.
  split; intros l r x.
  - do 2 eexists. split; [apply mergeWorkouts_objs|].
    split; [apply mergeWorkouts_objs|]. apply merge_records_by_id.
  - do 2 eexists. split; [apply mergeBodyAnalyses_objs|].
    split; [apply mergeBodyAnalyses_objs|]. apply merge_records_by_id.
Qed.

Lemma no_tie_sym {T : Type} (key : T -> value) (stamp : T -> Date) (l r : list T) :
  no_tie key stamp l r -> no_tie key stamp r l.
Proof.
  intros H b a Hb Ha E. destruct (H a b Ha Hb (eq_sym E)) as [-> | (ta & tb & Sa & Sb & N)].
  - now left.
  - right. exists tb, ta. auto.
Qed.

Lemma merge_records_swap {T : Type} (key : T -> value) (stamp order : T -> Date)
  (l r : list T) :
  NoDup (map key l) -> NoDup (map key r) -> no_tie key stamp l r ->
  Permutation (merge_records key stamp order l r) (merge_records key stamp order r l).
Proof.
  intros Nl Nr T0. apply NoDup_Permutation.
  - eapply NoDup_map_inv. apply merge_records_NoDup_ids.
  - eapply NoDup_map_inv. apply merge_records_NoDup_ids.
  - intros x. split; apply merge_records_swap_In; auto using no_tie_sym.
Qed.

(** X9.  With unique ids in each list and no two records of one id
    carrying the same time stamp, the merge does not depend on which
    side is local: exchanging the lists gives the same records. *)
Theorem merge_symmetric_without_ties (Date_parse : string -> Date) :
  (forall l r : list Workout.t,
      NoDup (map Workout.id l) -> NoDup (map Workout.id r) ->
      no_tie Workout.id (workoutStamp Date_parse) l r ->
      exists here there,
        mergeWorkouts Date_parse (map Obj l) (map Obj r) = Ok here
        /\ mergeWorkouts Date_parse (map Obj r) (map Obj l) = Ok there
        /\ Permutation here there)
  /\ (forall l r : list BodyAnalysis.t,
         NoDup (map BodyAnalysis.id l) -> NoDup (map BodyAnalysis.id r) ->
         no_tie BodyAnalysis.id (analysisStamp Date_parse) l r ->
         exists here there,
           mergeBodyAnalyses Date_parse (map Obj l) (map Obj r) = Ok here
           /\ mergeBodyAnalyses Date_parse (map Obj r) (map Obj l) = Ok there
           /\ Permutation here there).
Proof.
  split; intros l r Nl Nr T0.
  - do 2 eexists. split; [apply mergeWorkouts_objs|].
    split; [apply mergeWorkouts_objs|]. now apply merge_records_swap.
  - do 2 eexists. split; [apply mergeBodyAnalyses_objs|].
    split; [apply mergeBodyAnalyses_objs|]. now apply merge_records_swap.
Qed.

Lemma merge_symmetric_without_ties_witness :
  exists here there,
    mergeWorkouts Iso.parse (map Obj [Sample.local_a])
      (map Obj [Sample.remote_a; Sample.workout_b]) = Ok here
    /\ mergeWorkouts Iso.parse (map Obj [Sample.remote_a; Sample.workout_b])
         (map Obj [Sample.local_a]) = Ok there
    /\ Permutation here there.
Proof.
  apply (proj1 (merge_symmetric_without_ties Iso.parse)).
  - repeat constructor; simpl; tauto.
  - repeat constructor; simpl; intuition discriminate.
  - intros a b Ha Hb E. simpl in Ha, Hb.
    destruct Ha as [<- | []]. destruct Hb as [<- | [<- | []]].
    + right. exists 1704067200000, 1704412800000.
      split; [reflexivity | split; [reflexivity | discriminate]].
    + discriminate E.
Defined.

(** X10.  On a tie each side keeps its own copy: two records of one id
    with the same valid time stamp merge to the first when it is the
    local one and to the second when that is the local one. *)
Theorem tie_keeps_each_side_own_copy (Date_parse : string -> Date) :
  (forall (a b : Workout.t) (t : Z),
      Workout.id a = Workout.id b ->
      workoutStamp Date_parse a = Some t -> workoutStamp Date_parse b = Some t ->
      mergeWorkouts Date_parse [Obj a] [Obj b] = Ok [a]
      /\ mergeWorkouts Date_parse [Obj b] [Obj a] = Ok [b])
  /\ (forall (a b : BodyAnalysis.t) (t : Z),
         BodyAnalysis.id a = BodyAnalysis.id b ->
         analysisStamp Date_parse a = Some t -> analysisStamp Date_parse b = Some t ->
         mergeBodyAnalyses Date_parse [Obj a] [Obj b] = Ok [a]
         /\ mergeBodyAnalyses Date_parse [Obj b] [Obj a] = Ok [b]).
Proof.
  split; intros a b t E Sa Sb.
  - split.
    + rewrite (mergeWorkouts_objs Date_parse [a] [b] : mergeWorkouts Date_parse [Obj a] [Obj b] = _).
      f_equal.
      apply merge_records_pair; [exact E|].
      unfold withstands. rewrite Sa, Sb. apply Date_gt_irrefl.
    + rewrite (mergeWorkouts_objs Date_parse [b] [a] : mergeWorkouts Date_parse [Obj b] [Obj a] = _).
      f_equal.
      apply merge_records_pair; [now symmetry|].
      unfold withstands. rewrite Sa, Sb. apply Date_gt_irrefl.
  - split.
    + rewrite (mergeBodyAnalyses_objs Date_parse [a] [b] : mergeBodyAnalyses Date_parse [Obj a] [Obj b] = _).
      f_equal.
      apply merge_records_pair; [exact E|].
      unfold withstands. rewrite Sa, Sb. apply Date_gt_irrefl.
    + rewrite (mergeBodyAnalyses_objs Date_parse [b] [a] : mergeBodyAnalyses Date_parse [Obj b] [Obj a] = _).
      f_equal.
      apply merge_records_pair; [now symmetry|].
      unfold withstands. rewrite Sa, Sb. apply Date_gt_irrefl.
Qed.

Lemma tie_keeps_each_side_own_copy_witness :
  mergeWorkouts Iso.parse [Obj Sample.local_a]
    [Obj (Sample.workout (VStr "a") (VStr "2030-01-01") (VStr "2024-01-01"))]
  = Ok [Sample.local_a]
  /\ mergeWorkouts Iso.parse
       [Obj (Sample.workout (VStr "a") (VStr "2030-01-01") (VStr "2024-01-01"))]
       [Obj Sample.local_a]
     = Ok [Sample.workout (VStr "a") (VStr "2030-01-01") (VStr "2024-01-01")].
Proof.
  apply (proj1 (tie_keeps_each_side_own_copy Iso.parse) _ _ 1704067200000);
    reflexivity.
Defined.

Lemma dated_records_objs {T : Type} (order : T -> Date) (l : list (nullable T)) :
  dated_records order l -> exists l', l = map Obj l' /\ Forall (dated order) l'.
Proof.
  induction 1 as [|[|a] l Ha Hl IH].
  - exists []. split; [reflexivity | constructor].
  - destruct Ha.
  - destruct IH as (l' & -> & D). exists (a :: l'). split; [reflexivity|].
    now constructor.
Qed.

(** X11.  When every record carries a valid date in the field the sort
    reads, merging the result once more, with the same remote list or
    with itself, returns it unchanged, order included. *)
Theorem merging_again_changes_nothing (Date_parse : string -> Date) :
  (forall l r : list Workout.t,
      Forall (dated (workoutDate Date_parse)) l ->
      Forall (dated (workoutDate Date_parse)) r ->
      exists merged,
        mergeWorkouts Date_parse (map Obj l) (map Obj r) = Ok merged
        /\ mergeWorkouts Date_parse (map Obj merged) (map Obj r) = Ok merged
        /\ mergeWorkouts Date_parse (map Obj merged) (map Obj merged) = Ok merged)
  /\ (forall l r : list BodyAnalysis.t,
         Forall (dated (analysisStamp Date_parse)) l ->
         Forall (dated (analysisStamp Date_parse)) r ->
         exists merged,
           mergeBodyAnalyses Date_parse (map Obj l) (map Obj r) = Ok merged
           /\ mergeBodyAnalyses Date_parse (map Obj merged) (map Obj r) = Ok merged
           /\ mergeBodyAnalyses Date_parse (map Obj merged) (map Obj merged)
              = Ok merged).
Proof.
  split; intros l r Dl Dr.
  - exists (merge_workout_records Date_parse l r).
    rewrite !mergeWorkouts_objs. unfold merge_workout_records.
    rewrite merge_records_again_remote by assumption.
    rewrite (merge_records_again_self Workout.id _ _ l r) by assumption.
    auto.
  - exists (merge_analysis_records Date_parse l r).
    rewrite !mergeBodyAnalyses_objs. unfold merge_analysis_records.
    rewrite merge_records_again_remote by assumption.
    rewrite (merge_records_again_self BodyAnalysis.id _ _ l r) by assumption.
    auto.
Qed.

Lemma merging_again_changes_nothing_witness :
  exists merged,
    mergeWorkouts Iso.parse (map Obj [Sample.local_a])
      (map Obj [Sample.workout_b; Sample.remote_a]) = Ok merged
    /\ mergeWorkouts Iso.parse (map Obj merged)
         (map Obj [Sample.workout_b; Sample.remote_a]) = Ok merged
    /\ mergeWorkouts Iso.parse (map Obj merged) (map Obj merged) = Ok merged.
Proof.
  apply (proj1 (merging_again_changes_nothing Iso.parse));
    repeat constructor; discriminate.
Defined.

(** X12.  When both datasets hold record objects with valid dates,
    [mergeData] applied to its own result and the same remote dataset, or
    to its own result twice, returns that result: a second sync against
    an unchanged remote changes nothing. *)
Theorem mergeData_again_changes_nothing (Date_parse : string -> Date)
  (local remote : SyncData) :
  dated_dataset Date_parse local -> dated_dataset Date_parse remote ->
  exists merged,
    mergeData Date_parse (Some local) (Some remote) = Ok (Some merged)
    /\ mergeData Date_parse (Some merged) (Some remote) = Ok (Some merged)
    /\ mergeData Date_parse (Some merged) (Some merged) = Ok (Some merged).
Proof.
  intros [Lw La] [Rw Ra].
  destruct (dated_records_objs _ _ Lw) as (lw & Elw & Dlw).
  destruct (dated_records_objs _ _ La) as (la & Ela & Dla).
  destruct (dated_records_objs _ _ Rw) as (rw & Erw & Drw).
  destruct (dated_records_objs _ _ Ra) as (ra & Era & Dra).
  eexists. split; [|split].
  - unfold mergeData. rewrite Elw, Erw, Ela, Era.
    rewrite mergeWorkouts_objs, mergeBodyAnalyses_objs. simpl. reflexivity.
  - unfold mergeData. cbn [workouts recentExercises bodyAnalyses or_empty].
    rewrite Erw, Era. rewrite mergeWorkouts_objs, mergeBodyAnalyses_objs.
    cbn [bind]. unfold merge_workout_records, merge_analysis_records.
    rewrite !merge_records_again_remote by assumption.
    now rewrite recent_again_remote.
  - unfold mergeData. cbn [workouts recentExercises bodyAnalyses or_empty].
    rewrite mergeWorkouts_objs, mergeBodyAnalyses_objs.
    cbn [bind]. unfold merge_workout_records, merge_analysis_records.
    rewrite (merge_records_again_self Workout.id _ _ lw rw) by assumption.
    rewrite (merge_records_again_self BodyAnalysis.id _ _ la ra) by assumption.
    now rewrite recent_again_self.
Qed.

Lemma mergeData_again_changes_nothing_witness :
  exists merged,
    mergeData Iso.parse (Some Sample.local_data) (Some Sample.remote_data)
    = Ok (Some merged)
    /\ mergeData Iso.parse (Some merged) (Some Sample.remote_data) = Ok (Some merged)
    /\ mergeData Iso.parse (Some merged) (Some merged) = Ok (Some merged).
Proof.
  apply mergeData_again_changes_nothing; split; repeat constructor; discriminate.
Defined.

(** ** Signing in and out *)

Section ClientFacts.

Context {Info World : Type}.
Variable URLSearchParams_get : string -> string -> option string.
Variable fetch_info : string -> World -> option (info_response Info) * World.

Lemma getUserInfo_api (this : client Info) (w : World) :
  api (snd (fst (getUserInfo fetch_info this w))) = api this.
Proof.
  unfold getUserInfo.
  destruct (token (api this)) as [t|]; [|reflexivity].
  destruct (String.eqb t EmptyString); [reflexivity|].
  destruct (fetch_info t w) as [[r|] w']; [|reflexivity].
  destruct (negb (info_ok r)); [reflexivity|].
  destruct (info_json r); reflexivity.
Qed.

Lemma testConnection_client (this : client Info) (w : World) :
  snd (fst (testConnection fetch_info this w))
  = snd (fst (getUserInfo fetch_info this w)).
Proof.
  unfold testConnection.
  destruct (getUserInfo fetch_info this w) as [[[info|e] this'] w']; reflexivity.
Qed.

Lemma reachable_consistent (c : client Info) :
  reachable URLSearchParams_get fetch_info c -> consistent c.
Proof.
  unfold consistent. induction 1 as [|this tok _ _|this _ _|this loc _ IH|this w _ IH|this w _ IH].
  - reflexivity.
  - reflexivity.
  - reflexivity.
  - unfold handleOAuthCallback.
    destruct (URLSearchParams_get _ _) as [t|]; [|exact IH].
    destruct (String.eqb t EmptyString) eqn:E; [exact IH|].
    simpl. now rewrite E.
  - now rewrite getUserInfo_api.
  - now rewrite testConnection_client, getUserInfo_api.
Qed.

End ClientFacts.

Lemma has_token_Some (tok : option string) :
  has_token tok = true -> exists t, tok = Some t /\ String.eqb t EmptyString = false.
Proof.
  destruct tok as [t|]; simpl; [|discriminate].
  intros H. exists t. split; [reflexivity|]. now apply negb_true_iff.
Qed.

Lemma has_token_false (this : YandexAPI) :
  has_token (token this) = false ->
  forall (A : Type) (World : Type) (k : string -> IO World A) (s : session World),
    with_token World this k s = (Throw (Error "No token provided"), s).
Proof.
  intros H A World k s. unfold with_token, throw.
  destruct (token this) as [t|]; [|reflexivity].
  simpl in H. apply negb_false_iff in H. now rewrite H.
Qed.

(** X13.  For every client made by the constructor and changed only by
    [init], [logout], [handleOAuthCallback], [getUserInfo] and
    [testConnection], the flag [isAuthenticated] decides the guard of the
    transfer methods: when it is false each of them throws "No token
    provided" and sends nothing; when it is true the token is a non-empty
    string and [uploadFile], [syncData] and [loadData] send their first
    request with it. *)
Theorem authenticated_flag_decides_guard {Info World Net : Type}
  (URLSearchParams_get : string -> string -> option string)
  (fetch_info : string -> World -> option (info_response Info) * World)
  (fetch : request -> Net -> option response * Net)
  (c : client Info) :
  reachable URLSearchParams_get fetch_info c ->
  (isAuthenticated (api c) = false ->
   forall (s : session Net) (path : string) (data : payload)
          (localData : option SyncData),
     createFolder fetch (api c) path s = (Throw (Error "No token provided"), s)
     /\ uploadFile fetch (api c) path data s = (Throw (Error "No token provided"), s)
     /\ downloadFile fetch (api c) path s = (Throw (Error "No token provided"), s)
     /\ syncData fetch (api c) localData path s
        = (Throw (Error "No token provided"), s)
     /\ loadData fetch (api c) path s = (Throw (Error "No token provided"), s))
  /\ (isAuthenticated (api c) = true ->
      exists t,
        token (api c) = Some t /\ t <> EmptyString
        /\ forall (s : session Net) (path : string) (data : payload)
                  (localData : option SyncData),
            (exists rest,
                sent (snd (uploadFile fetch (api c) path data s))
                = sent s ++ GetUploadLink t path :: rest)
            /\ (exists rest,
                   sent (snd (syncData fetch (api c) localData path s))
                   = sent s
                     ++ PutResource t (substring_to path (lastIndexOf path "/"))
                     :: rest)
            /\ (exists rest,
                   sent (snd (loadData fetch (api c) path s))
                   = sent s ++ GetDownloadLink t path :: rest)).
Proof.
  intros R. apply reachable_consistent in R. unfold consistent in R. split.
  - intros F. rewrite F in R. symmetry in R. intros s path data localData.
    unfold createFolder, uploadFile, downloadFile, syncData, loadData.
    rewrite !has_token_false by exact R. auto.
  - intros T. rewrite T in R. symmetry in R.
    destruct (has_token_Some _ R) as (t & Et & Ne).
    exists t. split; [exact Et|]. split.
    { intros ->. discriminate Ne. }
    intros s path data localData. split; [|split].
    + io_unfold. rewrite Et, Ne. cbn [fst snd sent world]. repeat io_step.
      all: eexists; rewrite <- ?app_assoc; reflexivity.
    + io_unfold. rewrite Et, Ne. cbn [fst snd sent world]. repeat io_step.
      all: eexists; rewrite <- ?app_assoc; reflexivity.
    + io_unfold. rewrite Et, Ne. cbn [fst snd sent world]. repeat io_step.
      all: try destruct (content _); cbn [fst snd sent world].
      all: eexists; rewrite <- ?app_assoc; reflexivity.
Qed.

Lemma authenticated_flag_decides_guard_witness :
  exists t,
    token (api (init (logout (@new_client string)) (Some "y0_token"))) = Some t
    /\ t <> EmptyString
    /\ forall (s : session Disk.t) (path : string) (data : payload)
              (localData : option SyncData),
        (exists rest,
            sent (snd (uploadFile Disk.fetch
                         (api (init (logout (@new_client string)) (Some "y0_token")))
                         path data s))
            = sent s ++ GetUploadLink t path :: rest)
        /\ (exists rest,
               sent (snd (syncData Disk.fetch
                            (api (init (logout (@new_client string))
                                    (Some "y0_token")))
                            localData path s))
               = sent s
                 ++ PutResource t (substring_to path (lastIndexOf path "/")) :: rest)
        /\ (exists rest,
               sent (snd (loadData Disk.fetch
                            (api (init (logout (@new_client string))
                                    (Some "y0_token")))
                            path s))
               = sent s ++ GetDownloadLink t path :: rest).
Proof.
  apply (proj2 (authenticated_flag_decides_guard Query.get offline Disk.fetch
                  (init (logout new_client) (Some "y0_token"))
                  (reach_init _ _ _ _ _ _
                     (reach_logout _ _ _ _ _ (reach_new _ _ _ _)))));
    reflexivity.
Defined.




(** ** More on the transfers *)

(** X16.  [syncData] uploads only once the folder step has passed: when
    the folder request is rejected or answered with a status other than
    409 and outside 200-299, it throws after that one request and asks
    for no upload link; a 409, the folder being there already, counts as
    passed like a 2xx, and the request for the upload link follows. *)
Theorem syncData_folder_step {World : Type}
  (fetch : request -> World -> option response * World)
  (this : YandexAPI) (localData : option SyncData) (remotePath : string)
  (s : session World) (t : string) (answer : option response) (w : World) :
  token this = Some t -> t <> EmptyString ->
  fetch (PutResource t (substring_to remotePath (lastIndexOf remotePath "/")))
    (world s) = (answer, w) ->
  let folder := PutResource t (substring_to remotePath (lastIndexOf remotePath "/")) in
  let run := syncData fetch this localData remotePath s in
  match answer with
  | None => run = (Throw TypeError, {| world := w; sent := sent s ++ [folder] |})
  | Some r =>
      if (status r =? 409) || ok r
      then exists rest,
          sent (snd run) = sent s ++ folder :: GetUploadLink t remotePath :: rest
      else run = (Throw (ErrorStatus "HTTP" (status r)),
                  {| world := w; sent := sent s ++ [folder] |})
  end.
Proof.
  intros Et Ne F. apply String.eqb_neq in Ne. io_unfold.
  rewrite Et, Ne, F. cbn [fst snd sent world].
  destruct answer as [r|]; [|reflexivity].
  destruct (status r =? 409) eqn:S; cbn [orb fst snd sent world].
  - repeat io_step.
    all: eexists; rewrite <- ?app_assoc; reflexivity.
  - destruct (ok r) eqn:O; cbn [negb fst snd sent world]; [|reflexivity].
    repeat io_step.
    all: eexists; rewrite <- ?app_assoc; reflexivity.
Qed.

Lemma syncData_folder_step_witness :
  exists rest,
    sent (snd (syncData Disk.fetch Sample.signed_in (Some Sample.local_data)
                 Sample.remote_path {| world := Sample.disk; sent := [] |}))
    = [] ++ PutResource "y0_token" "/MyFitness"
         :: GetUploadLink "y0_token" Sample.remote_path :: rest.
Proof.
  apply (syncData_folder_step Disk.fetch Sample.signed_in (Some Sample.local_data)
           Sample.remote_path {| world := Sample.disk; sent := [] |} "y0_token"
           (Some {| status := 409; json := None |}) Sample.disk).
  - reflexivity.
  - discriminate.
  - reflexivity.
Defined.


(** X18.  The first sync: when the disk answers 404 for the file,
    [loadData] returns [null] after that one request, and [mergeData] of
    a local dataset with what [loadData] returned is the local dataset
    as it is. *)
Theorem missing_remote_file_keeps_local {World : Type}
  (Date_parse : string -> Date)
  (fetch : request -> World -> option response * World)
  (this : YandexAPI) (remotePath : string) (s : session World)
  (t : string) (r : response) (w : World) (localData : option SyncData) :
  token this = Some t -> t <> EmptyString ->
  fetch (GetDownloadLink t remotePath) (world s) = (Some r, w) ->
  status r = 404 ->
  loadData fetch this remotePath s
  = (Ok None, {| world := w; sent := sent s ++ [GetDownloadLink t remotePath] |})
  /\ forall remoteData,
       fst (loadData fetch this remotePath s) = Ok remoteData ->
       mergeData Date_parse localData remoteData = Ok localData.
Proof.
  intros Et Ne F S. apply String.eqb_neq in Ne.
  assert (E : loadData fetch this remotePath s
              = (Ok None,
                 {| world := w; sent := sent s ++ [GetDownloadLink t remotePath] |})).
  { io_unfold. rewrite Et, Ne, F. cbn [fst snd sent world].
    unfold ok. rewrite S. reflexivity. }
  split; [exact E|]. rewrite E. intros remoteData [= <-]. reflexivity.
Qed.

Lemma missing_remote_file_keeps_local_witness :
  loadData Disk.fetch Sample.signed_in "/MyFitness/none.json"
    {| world := Sample.disk; sent := [] |}
  = (Ok None,
     {| world := Sample.disk;
        sent := [] ++ [GetDownloadLink "y0_token" "/MyFitness/none.json"] |})
  /\ forall remoteData,
       fst (loadData Disk.fetch Sample.signed_in "/MyFitness/none.json"
              {| world := Sample.disk; sent := [] |}) = Ok remoteData ->
       mergeData Iso.parse (Some Sample.local_data) remoteData
       = Ok (Some Sample.local_data).
Proof.
  apply (missing_remote_file_keeps_local Iso.parse Disk.fetch Sample.signed_in
           "/MyFitness/none.json" {| world := Sample.disk; sent := [] |}
           "y0_token" {| status := 404; json := None |} Sample.disk
           (Some Sample.local_data)).
  - reflexivity.
  - discriminate.
  - reflexivity.
  - reflexivity.
Defined.

(** ** Upload, then download *)

Lemma read_write_same (d : Disk.t) (path : string) (doc : option SyncData) :
  Disk.read (Disk.write d path doc) path = Some doc.
Proof. unfold Disk.read, Disk.write. simpl. now rewrite String.eqb_refl. Qed.

Lemma read_write_other (d : Disk.t) (path other : string) (doc : option SyncData) :
  other <> path -> Disk.read (Disk.write d path doc) other = Disk.read d other.
Proof.
  intros N. unfold Disk.read, Disk.write. simpl.
  assert (E : String.eqb path other = false).
  { apply String.eqb_neq. congruence. }
  rewrite E. f_equal. induction (Disk.files d) as [|[p f] fs IH]; simpl; [reflexivity|].
  destruct (String.eqb_spec p path) as [-> | Np]; simpl.
  - rewrite E. exact IH.
  - destruct (String.eqb p other); [reflexivity | exact IH].
Qed.

Lemma syncData_on_disk (this : YandexAPI) (t : string) (d : Disk.t)
  (log : list request) (localData : option SyncData) (remotePath : string) :
  token this = Some t -> t <> EmptyString -> remotePath <> EmptyString ->
  exists folders',
    syncData Disk.fetch this localData remotePath {| world := d; sent := log |}
    = (Ok {| success := true; exists_ := None |},
       {| world := Disk.write {| Disk.folders := folders'; Disk.files := Disk.files d |}
                    remotePath localData;
          sent := log
                  ++ [PutResource t (substring_to remotePath (lastIndexOf remotePath "/"));
                      GetUploadLink t remotePath;
                      PutFile remotePath (JSON_stringify localData)] |}).
Proof.
  intros Et Nt Np. apply String.eqb_neq in Nt. apply String.eqb_neq in Np.
  io_unfold. rewrite Et, Nt. cbn [fst snd sent world].
  unfold Disk.fetch at 1.
  destruct (existsb _ (Disk.folders d)); cbn -[Disk.write substring_to lastIndexOf].
  - rewrite Np. cbn -[Disk.write substring_to lastIndexOf].
    exists (Disk.folders d). rewrite <- !app_assoc. destruct d; reflexivity.
  - rewrite Np. cbn -[Disk.write substring_to lastIndexOf].
    eexists. rewrite <- !app_assoc. reflexivity.
Qed.

Lemma loadData_on_disk (this : YandexAPI) (t : string) (d : Disk.t)
  (log : list request) (doc : option SyncData) (remotePath : string) :
  token this = Some t -> t <> EmptyString -> remotePath <> EmptyString ->
  Disk.read d remotePath = Some doc ->
  loadData Disk.fetch this remotePath {| world := d; sent := log |}
  = (Ok doc,
     {| world := d;
        sent := log ++ [GetDownloadLink t remotePath; GetFile remotePath] |}).
Proof.
  intros Et Nt Np R. apply String.eqb_neq in Nt. apply String.eqb_neq in Np.
  io_unfold. rewrite Et, Nt. cbn [fst snd sent world].
  unfold Disk.fetch. rewrite R. cbn. rewrite Np. cbn. rewrite R. cbn.
  rewrite <- !app_assoc. destruct doc; reflexivity.
Qed.

(** X19.  Against a disk that keeps what is put and serves what it
    keeps, [syncData] to a non-empty path succeeds, [loadData] of that
    path then returns the dataset that was uploaded, as uploaded, and
    every other file on the disk reads as before. *)
Theorem sync_then_load_returns_dataset (this : YandexAPI) (t : string)
  (d : Disk.t) (log : list request) (localData : option SyncData)
  (remotePath : string) :
  token this = Some t -> t <> EmptyString -> remotePath <> EmptyString ->
  let up := syncData Disk.fetch this localData remotePath
              {| world := d; sent := log |} in
  let down := loadData Disk.fetch this remotePath (snd up) in
  fst up = Ok {| success := true; exists_ := None |}
  /\ fst down = Ok localData
  /\ world (snd down) = world (snd up)
  /\ forall other, other <> remotePath ->
       Disk.read (world (snd up)) other = Disk.read d other.
Proof.
  intros Et Nt Np up down.
  destruct (syncData_on_disk this t d log localData remotePath Et Nt Np)
    as (folders' & Eup).
  unfold down, up. rewrite Eup. cbn [fst snd].
  rewrite (loadData_on_disk this t _ _ localData remotePath Et Nt Np)
    by apply read_write_same.
  cbn [fst snd world]. repeat split.
  intros other N. now rewrite read_write_other.
Qed.

Lemma sync_then_load_returns_dataset_witness :
  let up := syncData Disk.fetch Sample.signed_in (Some Sample.local_data)
              Sample.remote_path {| world := Sample.disk; sent := [] |} in
  let down := loadData Disk.fetch Sample.signed_in Sample.remote_path (snd up) in
  fst up = Ok {| success := true; exists_ := None |}
  /\ fst down = Ok (Some Sample.local_data)
  /\ world (snd down) = world (snd up)
  /\ forall other, other <> Sample.remote_path ->
       Disk.read (world (snd up)) other = Disk.read Sample.disk other.
Proof.
  apply (sync_then_load_returns_dataset Sample.signed_in "y0_token" Sample.disk []
           (Some Sample.local_data) Sample.remote_path).
  - reflexivity.
  - discriminate.
  - discriminate.
Defined.

(** ** The folder of the remote path *)

Lemma lastIndexOf_from_absent (c : ascii) (s : string) (i found : Z) :
  includes_char s c = false -> lastIndexOf_from c s i found = found.
Proof.
  revert i found. induction s as [|c' s IH]; intros i found; simpl; [reflexivity|].
  intros H. apply orb_false_iff in H. destruct H as [H1 H2].
  rewrite H1. now apply IH.
Qed.

Lemma lastIndexOf_from_last (c : ascii) (s1 s2 : string) (i found : Z) :
  includes_char s2 c = false ->
  lastIndexOf_from c (s1 ++ String c s2) i found = i + Z.of_nat (String.length s1).
Proof.
  intros H. revert i found. induction s1 as [|c' s1 IH]; intros i found.
  - simpl. rewrite Ascii.eqb_refl, lastIndexOf_from_absent by exact H. lia.
  - cbn [String.append lastIndexOf_from String.length]. rewrite IH. lia.
Qed.

Lemma substring_prefix (s1 s2 : string) :
  String.substring 0 (String.length s1) (s1 ++ s2) = s1.
Proof.
  induction s1 as [|c s1 IH]; simpl.
  - now destruct s2.
  - now rewrite IH.
Qed.

Lemma folder_of_path (dir name : string) :
  includes_char name "/" = false ->
  substring_to (dir ++ String "/" name) (lastIndexOf (dir ++ String "/" name) "/")
  = dir.
Proof.
  intros H. unfold lastIndexOf, substring_to.
  rewrite lastIndexOf_from_last by exact H.
  rewrite Z.add_0_l, Nat2Z.id. apply substring_prefix.
Qed.

Lemma folder_of_bare_name (name : string) :
  includes_char name "/" = false ->
  substring_to name (lastIndexOf name "/") = EmptyString.
Proof.
  intros H. unfold lastIndexOf, substring_to.
  rewrite lastIndexOf_from_absent by exact H. simpl. now destruct name.
Qed.

Lemma syncData_first_request {World : Type}
  (fetch : request -> World -> option response * World)
  (this : YandexAPI) (localData : option SyncData) (remotePath : string)
  (s : session World) (t : string) :
  token this = Some t -> t <> EmptyString ->
  exists rest,
    sent (snd (syncData fetch this localData remotePath s))
    = sent s
      ++ PutResource t (substring_to remotePath (lastIndexOf remotePath "/")) :: rest.
Proof.
  intros Et Ne. apply String.eqb_neq in Ne.
  io_unfold. rewrite Et, Ne. cbn [fst snd sent world]. repeat io_step.
  all: eexists; rewrite <- ?app_assoc; reflexivity.
Qed.

(** X20.  The folder [syncData] asks the disk to create is the remote
    path up to its last slash: for a path [dir/name], where [name] has no
    slash, it is [dir]; for a path without any slash it is the empty
    path. *)
Theorem syncData_creates_parent_folder {World : Type}
  (fetch : request -> World -> option response * World)
  (this : YandexAPI) (localData : option SyncData) (s : session World)
  (t dir name : string) :
  token this = Some t -> t <> EmptyString -> includes_char name "/" = false ->
  (exists rest,
      sent (snd (syncData fetch this localData (dir ++ String "/" name) s))
      = sent s ++ PutResource t dir :: rest)
  /\ (exists rest,
         sent (snd (syncData fetch this localData name s))
         = sent s ++ PutResource t EmptyString :: rest).
Proof.
  intros Et Ne H. split.
  - destruct (syncData_first_request fetch this localData (dir ++ String "/" name)
                s t Et Ne) as (rest & E).
    exists rest. now rewrite E, folder_of_path.
  - destruct (syncData_first_request fetch this localData name s t Et Ne)
      as (rest & E).
    exists rest. now rewrite E, folder_of_bare_name.
Qed.

Lemma syncData_creates_parent_folder_witness :
  (exists rest,
      sent (snd (syncData Disk.fetch Sample.signed_in (Some Sample.local_data)
                   ("/MyFitness" ++ String "/" "workouts.json")
                   {| world := Sample.disk; sent := [] |}))
      = [] ++ PutResource "y0_token" "/MyFitness" :: rest)
  /\ (exists rest,
         sent (snd (syncData Disk.fetch Sample.signed_in (Some Sample.local_data)
                      "workouts.json" {| world := Sample.disk; sent := [] |}))
         = [] ++ PutResource "y0_token" EmptyString :: rest).
Proof.
  apply (syncData_creates_parent_folder Disk.fetch Sample.signed_in
           (Some Sample.local_data) {| world := Sample.disk; sent := [] |}
           "y0_token" "/MyFitness" "workouts.json").
  - reflexivity.
  - discriminate.
  - reflexivity.
Defined.

(** ** The record store *)

Module StorageFacts.

Import Storage.


(** What a load answers after [addRecentExercise], on a store that takes
    writes. *)
Lemma add_then_load (name : string) (st : state) :
  writable (snd st) = true ->
  fst (loadRecentExercises (snd (addRecentExercise name st)))
  = firstn 10
      (name :: filter (fun e => negb (String.eqb e name))
                 (fst (loadRecentExercises st))).
Proof.
  destruct st as [this ls]. simpl. intros W.
  unfold addRecentExercise, saveRecentExercises. simpl. now rewrite W.
Qed.


End StorageFacts.



(** X22.  Adding an exercise in the store is merging: when the stored
    list has no duplicates, the list stored by [addRecentExercise] is the
    result of [mergeRecentExercises] on the one-entry list of the new
    exercise and the stored list. *)
Theorem addRecentExercise_is_a_merge (name : string) (st : Storage.state) :
  Storage.writable (snd st) = true ->
  NoDup (fst (Storage.loadRecentExercises st)) ->
  fst (Storage.loadRecentExercises (snd (Storage.addRecentExercise name st)))
  = mergeRecentExercises [name] (fst (Storage.loadRecentExercises st)).
Proof.
  intros W N. rewrite (StorageFacts.add_then_load name st W).
  rewrite mergeRecentExercises_eq. cbn [app dedupe_first].
  rewrite (dedupe_first_NoDup_id _ N). do 2 f_equal.
  apply filter_ext. intros e. now rewrite String.eqb_sym.
Qed.

Lemma addRecentExercise_is_a_merge_witness :
  fst (Storage.loadRecentExercises
         (snd (Storage.addRecentExercise "Plank" sample_store)))
  = mergeRecentExercises ["Plank"] (fst (Storage.loadRecentExercises sample_store)).
Proof.
  apply (addRecentExercise_is_a_merge "Plank" sample_store).
  - reflexivity.
  - simpl. repeat constructor; simpl; intuition discriminate.
Defined.

(** The three loads of a state. *)
Lemma loads_ignore_manager (this this' : Storage.manager) (ls : Storage.localStorage) :
  fst (Storage.loadWorkouts (this, ls)) = fst (Storage.loadWorkouts (this', ls))
  /\ fst (Storage.loadRecentExercises (this, ls))
     = fst (Storage.loadRecentExercises (this', ls))
  /\ fst (Storage.loadBodyAnalyses (this, ls))
     = fst (Storage.loadBodyAnalyses (this', ls)).
Proof. repeat split. Qed.

(** X23.  Export, then import, on stores whose items hold JSON arrays
    where they parse at all: what [exportData] writes on one store,
    [importData] accepts on any store that takes writes, and afterwards
    the three collections load there as they load on the first store,
    items that were absent or unparsable there loading as empty lists on
    both. *)
Theorem export_then_import_transfers (now : string) (source target : Storage.state) :
  Storage.writable (snd target) = true ->
  let exported := fst (Storage.exportData now source) in
  let imported := Storage.importData (Some exported) target in
  fst imported = true
  /\ fst (Storage.loadWorkouts (snd imported)) = fst (Storage.loadWorkouts source)
  /\ fst (Storage.loadRecentExercises (snd imported))
     = fst (Storage.loadRecentExercises source)
  /\ fst (Storage.loadBodyAnalyses (snd imported))
     = fst (Storage.loadBodyAnalyses source).
Proof.
  destruct source as [this1 ls1], target as [this2 ls2].
  cbn [snd]. intros W. cbv zeta.
  unfold Storage.exportData, Storage.importData, JSON_stringify.
  cbn [Storage.loadWorkouts Storage.loadRecentExercises Storage.loadBodyAnalyses
       fst snd workouts recentExercises bodyAnalyses].
  unfold Storage.saveWorkouts, Storage.saveRecentExercises, Storage.saveBodyAnalyses.
  rewrite W. cbn. repeat split.
Qed.

Lemma export_then_import_transfers_witness :
  let exported := fst (Storage.exportData "2024-01-06T10:00:00.000Z" sample_store) in
  let imported := Storage.importData (Some exported) empty_store in
  fst imported = true
  /\ fst (Storage.loadWorkouts (snd imported))
     = fst (Storage.loadWorkouts sample_store)
  /\ fst (Storage.loadRecentExercises (snd imported))
     = fst (Storage.loadRecentExercises sample_store)
  /\ fst (Storage.loadBodyAnalyses (snd imported))
     = fst (Storage.loadBodyAnalyses sample_store).
Proof.
  apply (export_then_import_transfers "2024-01-06T10:00:00.000Z"
           sample_store empty_store).
  reflexivity.
Defined.

(** X24.  [importData] answers [false] only for a text that is not JSON
    or is the JSON [null], and then changes nothing; for any document it
    answers [true], also on a store whose quota is exhausted, where
    nothing of the document is kept and the collections load as
    before. *)
Theorem importData_reports (jsonData : option payload) (st : Storage.state) :
  (fst (Storage.importData jsonData st) = false
   <-> jsonData = None \/ jsonData = Some (Json None))
  /\ (fst (Storage.importData jsonData st) = false ->
      snd (Storage.importData jsonData st) = st)
  /\ (Storage.writable (snd st) = false ->
      snd (snd (Storage.importData jsonData st)) = snd st).
Proof.
  destruct st as [this ls]. destruct jsonData as [[[data|]]|]; simpl.
  - split; [|split].
    + split; [discriminate | intros [H | H]; discriminate H].
    + discriminate.
    + intros W.
      unfold Storage.saveWorkouts, Storage.saveRecentExercises,
        Storage.saveBodyAnalyses.
      destruct (workouts data), (recentExercises data), (bodyAnalyses data);
        simpl; rewrite ?W; simpl; rewrite ?W; simpl; rewrite ?W; reflexivity.
  - split; [|split]; auto. split; auto.
  - split; [|split]; auto. split; auto.
Qed.

Lemma importData_reports_witness :
  snd (snd (Storage.importData
              (Some (JSON_stringify (Some Sample.remote_data))) full_store))
  = snd full_store.
Proof.
  apply (importData_reports (Some (JSON_stringify (Some Sample.remote_data)))
           full_store).
  reflexivity.
Defined.

(** ** The validator *)

Module ValidatorFacts.

Import Validator.

Lemma push_if_nil {E : Type} (c : bool) (e : E) (errs : list E) :
  push_if c e errs = [] <-> c = false /\ errs = [].
Proof.
  unfold push_if. destruct c; split.
  - intros H. now destruct errs.
  - intros [H _]. discriminate H.
  - auto.
  - tauto.
Qed.

Lemma push_if_keeps {E : Type} (c : bool) (e : E) (errs : list E) :
  errs <> [] -> push_if c e errs <> [].
Proof.
  intros H. unfold push_if. destruct c; [|exact H]. now destruct errs.
Qed.

Section Facts.

Variable StringToNumber : string -> option Z.

Lemma validateSet_accepts (set : nullable SetObj) :
  validateSet StringToNumber set = [] <-> valid_set set.
Proof.
  unfold valid_set. destruct set as [|[w r]]; simpl.
  - split; [discriminate | intros (w & r & H & _); discriminate H].
  - rewrite !push_if_nil, !orb_false_iff, !negb_false_iff. split.
    + intros (Gr & Gw & (Hr & Lr) & (Hw & Lw) & _).
      destruct w as [| | |w|]; try discriminate Hw.
      destruct r as [| | |r|]; try discriminate Hr.
      unfold js_lt, js_gt in *. simpl in *.
      apply Z.ltb_ge in Lw, Lr, Gw, Gr. exists w, r. repeat split; auto.
    + intros (w' & r' & [= -> ->] & [W1 W2] & [R1 R2]).
      unfold js_lt, js_gt. simpl.
      repeat split; auto; apply Z.ltb_ge; assumption.
Qed.

Lemma each_set_nil (l : list (nullable SetObj)) (i : Z) (errs : list exercise_error) :
  each_set StringToNumber l i errs = [] <-> errs = [] /\ Forall valid_set l.
Proof.
  revert i errs. induction l as [|s l IH]; intros i errs; simpl.
  - split; [auto | tauto].
  - rewrite IH, push_if_nil. split.
    + intros [[H ->] F]. split; [reflexivity|]. constructor; [|exact F].
      apply validateSet_accepts.
      destruct (validateSet StringToNumber s); [reflexivity | discriminate H].
    + intros [-> F]. inversion F as [|? ? Hs Hl]; subst.
      apply validateSet_accepts in Hs. rewrite Hs. auto.
Qed.

Lemma validateExercise_accepts (exercise : nullable ExerciseObj) :
  validateExercise StringToNumber exercise = Ok [] <-> valid_exercise exercise.
Proof.
  unfold valid_exercise. destruct exercise as [|[name ss]]; simpl.
  - split; [discriminate | intros (n & l & H & _); discriminate H].
  - destruct ss as [|len|l]; simpl.
    + split; [|intros (n & l & [= _ H] & _); discriminate H].
      intros [= H]. apply app_eq_nil in H. destruct H as [_ H]. discriminate H.
    + split; [discriminate | intros (n & l & [= _ H] & _); discriminate H].
    + split.
      * intros [= H]. apply each_set_nil in H. destruct H as [H F].
        apply push_if_nil in H. destruct H as [Z0 H].
        apply push_if_nil in H. destruct H as [N _].
        apply orb_false_iff in N. destruct N as [T S].
        apply negb_false_iff in T, S.
        destruct name as [| | | |n]; try discriminate S.
        exists n, l. split; [reflexivity|]. split; [|split].
        -- intros ->. discriminate T.
        -- intros ->. discriminate Z0.
        -- exact F.
      * intros (n & l' & [= -> ->] & Nn & Nl & F). f_equal.
        apply each_set_nil. split; [|exact F].
        rewrite !push_if_nil. repeat split.
        -- simpl. destruct l'; [contradiction | reflexivity].
        -- simpl. apply String.eqb_neq in Nn. now rewrite Nn.
Qed.

Lemma validateExercise_throws (exercise : nullable ExerciseObj) (e : error) :
  validateExercise StringToNumber exercise = Throw e
  <-> e = TypeError /\ breaks_exercise exercise.
Proof.
  unfold breaks_exercise. destruct exercise as [|ex]; simpl.
  - split; [discriminate | intros (_ & ex & len & H & _); discriminate H].
  - destruct (sets ex) as [|len|l] eqn:S.
    + split; [discriminate | intros (_ & ex' & len & [= <-] & H); congruence].
    + split.
      * intros [= <-]. split; [reflexivity|]. now exists ex, len.
      * intros [-> _]. reflexivity.
    + split; [discriminate | intros (_ & ex' & len & [= <-] & H); congruence].
Qed.

Lemma each_exercise_outcome (l : list (nullable ExerciseObj)) (i : Z)
  (errs : list workout_error) :
  match each_exercise StringToNumber l i errs with
  | Ok errs' =>
      ~ Exists breaks_exercise l
      /\ (errs' = [] <-> errs = [] /\ Forall valid_exercise l)
  | Throw e => e = TypeError /\ Exists breaks_exercise l
  end.
Proof.
  revert i errs. induction l as [|x l IH]; intros i errs; simpl.
  - split; [intros H; inversion H|]. split; [auto | tauto].
  - destruct (validateExercise StringToNumber x) as [xe|e] eqn:V; simpl.
    + assert (Nx : ~ breaks_exercise x).
      { intros B. assert (T : validateExercise StringToNumber x = Throw TypeError)
          by now apply validateExercise_throws.
        congruence. }
      specialize (IH (i + 1)
                    (push_if (0 <? Z.of_nat (List.length xe))
                       (InExercise (i + 1) xe) errs)).
      destruct (each_exercise StringToNumber l (i + 1) _) as [errs'|e].
      * destruct IH as [NE IH]. split.
        -- intros H. inversion H; subst; contradiction.
        -- rewrite IH, push_if_nil. split.
           ++ intros [[Hx ->] F]. split; [reflexivity|]. constructor; [|exact F].
              apply validateExercise_accepts. rewrite V. f_equal.
              destruct xe; [reflexivity | discriminate Hx].
           ++ intros [-> F]. inversion F as [|? ? Hx Hl]; subst.
              apply validateExercise_accepts in Hx. rewrite V in Hx.
              injection Hx as ->. auto.
      * destruct IH as [-> E]. split; [reflexivity|]. now apply Exists_cons_tl.
    + apply validateExercise_throws in V. destruct V as [-> B].
      split; [reflexivity|]. now apply Exists_cons_hd.
Qed.

End Facts.

End ValidatorFacts.

Lemma length_zero_nil {T : Type} (l : list T) :
  (Z.of_nat (List.length l) =? 0) = true <-> l = [].
Proof.
  destruct l; simpl; split; try reflexivity; discriminate.
Qed.

Lemma validateWorkout_array (StringToNumber : string -> option Z)
  (l : list (nullable Validator.ExerciseObj)) :
  match Validator.validateWorkout StringToNumber
          (Obj {| Validator.exercises := Validator.Array l |}) with
  | Ok v =>
      ~ Exists Validator.breaks_exercise l
      /\ (Validator.isValid v = true
          <-> (1 <= List.length l <= 8)%nat /\ Forall Validator.valid_exercise l)
  | Throw e => e = TypeError /\ Exists Validator.breaks_exercise l
  end.
Proof.
  unfold Validator.validateWorkout.
  cbn [Validator.exercises Validator.field_truthy Validator.isArray negb orb andb
       Validator.field_length Validator.is_zero Validator.js_gt Validator.ToNumber].
  unfold Validator.push_if at 3. cbn [app].
  match goal with
  | |- context [Validator.each_exercise _ l 0 ?errs] =>
      pose proof (ValidatorFacts.each_exercise_outcome StringToNumber l 0 errs) as O;
      destruct (Validator.each_exercise StringToNumber l 0 errs) as [errs'|e]
  end; cbn [bind]; [|exact O].
  destruct O as [NE O]. split; [exact NE|].
  cbn [Validator.isValid]. rewrite length_zero_nil, O.
  rewrite !ValidatorFacts.push_if_nil.
  rewrite Z.eqb_neq, Z.ltb_ge. split.
  - intros [(G & Z0 & _) F]. split; [lia | exact F].
  - intros [L F]. repeat split; auto; lia.
Qed.



Lemma seen_set_valid (s : ExerciseSet) :
  Validator.valid_set (seen_set s) <-> plausible_set s.
Proof.
  unfold Validator.valid_set, seen_set, plausible_set. split.
  - intros (w & r & [= <- <-] & H). exact H.
  - intros H. exists (weight s), (reps s). split; [reflexivity | exact H].
Qed.

Lemma Forall_map_iff {T U : Type} (f : T -> U) (P : U -> Prop) (Q : T -> Prop)
  (l : list T) :
  (forall x, P (f x) <-> Q x) -> (Forall P (map f l) <-> Forall Q l).
Proof.
  intros H. rewrite Forall_map. split; apply Forall_impl; intros x; apply H.
Qed.

Lemma seen_exercise_valid (e : Exercise) :
  Validator.valid_exercise (seen_exercise e) <-> plausible_exercise e.
Proof.
  unfold Validator.valid_exercise, seen_exercise, plausible_exercise. split.
  - intros (n & l & [= <- <-] & Hn & Hl & F). split; [exact Hn|]. split.
    + intros E. apply Hl. now rewrite E.
    + now apply (Forall_map_iff seen_set _ _ _ seen_set_valid).
  - intros (Hn & Hl & F). exists (exercise e), (map seen_set (sets e)).
    split; [reflexivity|]. split; [exact Hn|]. split.
    + intros E. apply Hl. now apply map_eq_nil in E.
    + now apply (Forall_map_iff seen_set _ _ _ seen_set_valid).
Qed.

(** X27.  On a workout record of the store [validateWorkout] never
    throws, reads nothing but [exercises], and answers valid exactly when
    the record has one to eight exercises, each with a non-empty name and
    at least one set, every weight within 0..1000 and every number of
    repetitions within 0..100; a record that lacks [id], [date] or
    [updatedAt] passes like any other. *)
Theorem validateWorkout_on_records (StringToNumber : string -> option Z)
  (w : Workout.t) :
  (exists v,
      Validator.validateWorkout StringToNumber (seen_workout w) = Ok v
      /\ (Validator.isValid v = true <-> plausible_workout w))
  /\ (forall id date updatedAt deviceId,
         Validator.validateWorkout StringToNumber
           (seen_workout {| Workout.id := id; Workout.date := date;
                            Workout.updatedAt := updatedAt;
                            Workout.deviceId := deviceId;
                            Workout.exercises := Workout.exercises w |})
         = Validator.validateWorkout StringToNumber (seen_workout w)).
Proof.
  split; [|reflexivity].
  unfold seen_workout, plausible_workout.
  pose proof (validateWorkout_array StringToNumber
                (map seen_exercise (Workout.exercises w))) as A.
  destruct (Validator.validateWorkout StringToNumber _) as [v|e].
  - destruct A as [_ A]. exists v. split; [reflexivity|].
    rewrite A, length_map.
    now rewrite (Forall_map_iff seen_exercise _ _ _ seen_exercise_valid).
  - exfalso. destruct A as [_ A]. apply Exists_exists in A.
    destruct A as (x & Hx & ex & len & -> & S).
    apply in_map_iff in Hx. destruct Hx as (e0 & E & _).
    unfold seen_exercise in E. injection E as <-. discriminate S.
Qed.

Example sample_workout_is_valid :
  Validator.validateWorkout decimal (seen_workout Sample.local_a)
  = Ok {| Validator.isValid := true; Validator.errors := [] |}.
Proof. reflexivity. Qed.

Example validator_breaks_on_text :
  Validator.validateWorkout decimal
    (Obj {| Validator.exercises := Validator.NotArray (VNum 5) |})
  = Throw TypeError.
Proof. reflexivity. Qed.
